(** * Calculator: a recursive-descent infix evaluator

    Shallow embedding of [src/Calculator/main.cpp] and the properties of
    its scanner ([makeFloat]), its three grammar levels
    ([tokenizeNumbers], [tokenizeMulDiv], [tokenizeExpression]) and its
    driver ([solve]).

    Modelling conventions.
    - The cursor [const char*& eq] over a NUL-terminated string is the
      remaining suffix of the input; [*eq] is [peek], [eq++] is [advance].
      The program only ever advances over a character it has just read
      and found different from NUL, so the suffix never runs past the end.
    - [float] is IEEE-754 binary32 and [double] is binary64, both taken
      from the Standard Library's executable specification [SpecFloat],
      rounding to nearest even, every operation rounded to its own type.
    - [int] is a 32-bit two's complement integer kept in [Z], with the
      wrap-around written out ([wrap32]).  Only [divisor] (after ten
      fractional digits) and the parenthesis counter (after 2^31 nested
      parentheses) can leave the range; C++ leaves that case undefined
      and the model takes the wrapped result.
    - A failing [assert] aborts the evaluation; each assertion site is
      given the error kind the specification names for it.
    - The mutual recursion of the grammar is driven by a fuel argument;
      [solve] supplies enough of it for every input ([solve_total]). *)

From Stdlib Require Import ZArith Bool String Ascii List Lia.
From Stdlib Require Import Floats.SpecFloat.

Local Open Scope Z_scope.
Local Open Scope string_scope.

(** ** Machine arithmetic *)

Module Float.

(** binary32: 24 bits of precision, infinities at exponent 128. *)
Definition float := spec_float.
(** binary64: 53 bits of precision, infinities at exponent 1024. *)
Definition double := spec_float.

Definition prec32 : Z := 24.
Definition emax32 : Z := 128.
Definition prec64 : Z := 53.
Definition emax64 : Z := 1024.

Definition fadd : float -> float -> float := SFadd prec32 emax32.
Definition fmul : float -> float -> float := SFmul prec32 emax32.
Definition fdiv : float -> float -> float := SFdiv prec32 emax32.

Definition dadd : double -> double -> double := SFadd prec64 emax64.
Definition dsub : double -> double -> double := SFsub prec64 emax64.

(** Conversion of an [int] to [float] (round to nearest even). *)
Definition of_int (z : Z) : float := binary_normalize prec32 emax32 z 0 false.

(** Conversion between formats: the value is rounded into the target. *)
Definition convert (prec emax : Z) (x : spec_float) : spec_float :=
  match x with
  | S754_finite s m e => binary_round prec emax s m e
  | _ => x
  end.

Definition to_double : float -> double := convert prec64 emax64.
Definition to_float : double -> float := convert prec32 emax32.

(** The C++ comparison [x != y]: true on unordered operands. *)
Definition fneq (x y : float) : bool := negb (SFeqb x y).

End Float.

Import Float.

(** [int] arithmetic: the result of an operation reduced to 32 bits. *)
Definition wrap32 (z : Z) : Z := (z + 2 ^ 31) mod 2 ^ 32 - 2 ^ 31.

(** The values an [int] can hold. *)
Definition inInt (z : Z) : Prop := - 2 ^ 31 <= z < 2 ^ 31.

(** ** The cursor *)

Definition NUL : ascii := Ascii.zero.

(** [*eq] *)
Definition peek (eq : string) : ascii :=
  match eq with
  | EmptyString => NUL
  | String c _ => c
  end.

(** [eq++] *)
Definition advance (eq : string) : string :=
  match eq with
  | EmptyString => EmptyString
  | String _ eq' => eq'
  end.

(** The loop that steps over a run of space characters. *)
Fixpoint skipSpaces (eq : string) : string :=
  match eq with
  | String c eq' => if Ascii.eqb c " " then skipSpaces eq' else eq
  | EmptyString => eq
  end.

(** ** Scanner *)

Definition code (c : ascii) : Z := Z.of_N (N_of_ascii c).

Definition isDigit (c : ascii) : bool :=
  Z.leb (code "0"%char) (code c) && Z.leb (code c) (code "9"%char).

Definition toDigit (c : ascii) : Z := code c - code "0"%char.

Definition operators : list ascii := ("+" :: "-" :: "/" :: "*" :: nil)%char.

Definition isOperator (c : ascii) : bool :=
  existsb (Ascii.eqb c) operators.

(** The scanning loop of [makeFloat].  It returns the three accumulators
    and the position where the scan stopped; the source leaves the loop
    at two places (a second decimal point, or a character that is neither
    a digit nor a decimal point) and computes the same expression from
    the accumulators at both. *)
Fixpoint makeFloat_loop (eq : string) (beforeDecimal afterDecimal : float)
    (divisor : Z) (isFraction : bool) : float * float * Z * string :=
  match eq with
  | EmptyString => (beforeDecimal, afterDecimal, divisor, eq)
  | String c eq' =>
      if isDigit c then
        if isFraction then
          makeFloat_loop eq' beforeDecimal
            (fadd (fmul afterDecimal (of_int 10)) (of_int (toDigit c)))
            (wrap32 (divisor * 10)) isFraction
        else
          makeFloat_loop eq'
            (fadd (fmul beforeDecimal (of_int 10)) (of_int (toDigit c)))
            afterDecimal divisor isFraction
      else if Ascii.eqb c "." then
        if isFraction then (beforeDecimal, afterDecimal, divisor, eq)
        else makeFloat_loop eq' beforeDecimal afterDecimal divisor true
      else (beforeDecimal, afterDecimal, divisor, eq)
  end.

(** [sign * (beforeDecimal + (afterDecimal / divisor))] *)
Definition makeFloat_value (sign : Z) (beforeDecimal afterDecimal : float)
    (divisor : Z) : float :=
  fmul (of_int sign) (fadd beforeDecimal (fdiv afterDecimal (of_int divisor))).

(** [makeFloat eq] is the value and the [end] pointer. *)
Definition makeFloat (eq : string) : float * string :=
  let '(sign, eq) :=
    if Ascii.eqb (peek eq) "-" then (-1, advance eq) else (1, eq) in
  let '(beforeDecimal, afterDecimal, divisor, eptr) :=
    makeFloat_loop eq (of_int 0) (of_int 0) 1 false in
  (makeFloat_value sign beforeDecimal afterDecimal divisor, eptr).

(** ** Outcomes *)

Inductive error : Type :=
  | MalformedNumber          (* the scan consumed nothing *)
  | UnbalancedParentheses    (* closing parenthesis missing, or pCount not 0 *)
  | DivisionByZero.          (* right operand of a division is 0 *)

Inductive result (A : Type) : Type :=
  | Ok (a : A)
  | Abort (e : error)
  | OutOfFuel.

Arguments Ok {A} a.
Arguments Abort {A} e.
Arguments OutOfFuel {A}.

Definition bind {A B : Type} (r : result A) (k : A -> result B) : result B :=
  match r with
  | Ok a => k a
  | Abort e => Abort e
  | OutOfFuel => OutOfFuel
  end.

Notation "' p <- r ;; k" := (bind r (fun p => k))
  (at level 61, p pattern, r at next level, right associativity).

(** Two cursors into the same string are the same pointer exactly when
    the same number of characters remains after them. *)
Definition samePointer (p q : string) : bool :=
  Nat.eqb (String.length p) (String.length q).

(** ** Grammar *)

(** What a grammar level hands back: its value, the cursor and the
    parenthesis counter (both passed by reference in the source). *)
Definition parsed (V : Type) : Type := (V * string * Z)%type.

Definition negateIf (hasNegative : bool) (x : float) : float :=
  if hasNegative then fmul x (of_int (-1)) else x.

Fixpoint tokenizeNumbers (fuel : nat) (eq : string) (countParenthesis : Z)
    {struct fuel} : result (parsed float) :=
  match fuel with
  | O => OutOfFuel
  | S fuel =>
      let eq := skipSpaces eq in
      let '(hasNegative, eq) :=
        if Ascii.eqb (peek eq) "-" then (true, advance eq) else (false, eq) in
      if Ascii.eqb (peek eq) "(" then
        let eq := advance eq in
        let countParenthesis := wrap32 (countParenthesis + 1) in
        '(calculated, eq, countParenthesis) <-
           tokenizeExpression fuel eq countParenthesis ;;
        if Ascii.eqb (peek eq) ")" then
          let eq := advance eq in
          let countParenthesis := wrap32 (countParenthesis - 1) in
          Ok (negateIf hasNegative calculated, eq, countParenthesis)
        else Abort UnbalancedParentheses
      else
        let '(toNumber, eptr) := makeFloat eq in
        if samePointer eptr eq then Abort MalformedNumber
        else Ok (negateIf hasNegative toNumber, eptr, countParenthesis)
  end

with tokenizeMulDiv (fuel : nat) (eq : string) (countParenthesis : Z)
    {struct fuel} : result (parsed float) :=
  match fuel with
  | O => OutOfFuel
  | S fuel =>
      '(first, eq, countParenthesis) <-
         tokenizeNumbers fuel eq countParenthesis ;;
      tokenizeMulDiv_loop fuel first eq countParenthesis
  end

(** The [while (true)] of [tokenizeMulDiv], entered with [first]. *)
with tokenizeMulDiv_loop (fuel : nat) (first : float) (eq : string)
    (countParenthesis : Z) {struct fuel} : result (parsed float) :=
  match fuel with
  | O => OutOfFuel
  | S fuel =>
      let eq := skipSpaces eq in
      let opr := peek eq in
      if negb (Ascii.eqb opr "*") && negb (Ascii.eqb opr "/") then
        Ok (first, eq, countParenthesis)
      else
        let eq := advance eq in
        '(second, eq, countParenthesis) <-
           tokenizeNumbers fuel eq countParenthesis ;;
        if negb (Ascii.eqb opr "/") then
          tokenizeMulDiv_loop fuel (fmul first second) eq countParenthesis
        else if fneq second (of_int 0) then
          tokenizeMulDiv_loop fuel (fdiv first second) eq countParenthesis
        else Abort DivisionByZero
  end

with tokenizeExpression (fuel : nat) (eq : string) (countParenthesis : Z)
    {struct fuel} : result (parsed float) :=
  match fuel with
  | O => OutOfFuel
  | S fuel =>
      '(first, eq, countParenthesis) <-
         tokenizeMulDiv fuel eq countParenthesis ;;
      tokenizeExpression_loop fuel (to_double first) eq countParenthesis
  end

(** The [while (true)] of [tokenizeExpression]; the accumulator is a
    [double], converted to [float] when the function returns. *)
with tokenizeExpression_loop (fuel : nat) (first : double) (eq : string)
    (countParenthesis : Z) {struct fuel} : result (parsed float) :=
  match fuel with
  | O => OutOfFuel
  | S fuel =>
      let eq := skipSpaces eq in
      let opr := peek eq in
      if negb (Ascii.eqb opr "+") && negb (Ascii.eqb opr "-") then
        Ok (to_float first, eq, countParenthesis)
      else
        let eq := advance eq in
        '(second, eq, countParenthesis) <-
           tokenizeMulDiv fuel eq countParenthesis ;;
        if Ascii.eqb opr "+" then
          tokenizeExpression_loop fuel (dadd first (to_double second))
            eq countParenthesis
        else
          tokenizeExpression_loop fuel (dsub first (to_double second))
            eq countParenthesis
  end.

(** ** Driver *)

(** Fuel that suffices for an input: three calls per character. *)
Definition fuelFor (eq : string) : nat := 3 * String.length eq + 3.

Definition solve (eq : string) : result float :=
  '(answer, _, pCount) <- tokenizeExpression (fuelFor eq) eq 0 ;;
  if Z.eqb pCount 0 then Ok answer else Abort UnbalancedParentheses.

(** ** Numeric literals

    The texts the claims call numeric literals: digits with at most one
    decimal point, not empty.  [literalFrom isFraction s] follows the
    scanner's own flag, so that the scan of a literal runs to its end.
    Forms such as [5.] and [.5] are included; the scanner accepts them. *)

Fixpoint literalFrom (isFraction : bool) (s : string) : bool :=
  match s with
  | EmptyString => true
  | String c s' =>
      if isDigit c then literalFrom isFraction s'
      else Ascii.eqb c "." && negb isFraction && literalFrom true s'
  end.

Definition numericLiteral (s : string) : bool :=
  match s with
  | EmptyString => false
  | _ => literalFrom false s
  end.

Fixpoint allDigits (s : string) : bool :=
  match s with
  | EmptyString => true
  | String c s' => isDigit c && allDigits s'
  end.

(** The scan of a number stops in front of [rest]. *)
Definition stopsScan (rest : string) : bool :=
  negb (isDigit (peek rest)) && negb (Ascii.eqb (peek rest) ".").

(** The value the scanner gives to a literal. *)
Definition literalValue (s : string) : float := fst (makeFloat s).

(** Number of digit characters in a text. *)
Fixpoint countDigits (s : string) : nat :=
  match s with
  | EmptyString => O
  | String c s' => ((if isDigit c then 1 else 0) + countDigits s')%nat
  end.

(** A literal with an optional leading minus sign, which the scanner
    takes as the sign of the number. *)
Definition signedLiteral (s : string) : bool :=
  if Ascii.eqb (peek s) "-" then numericLiteral (advance s)
  else numericLiteral s.

(** The text contains a decimal point. *)
Fixpoint hasPoint (s : string) : bool :=
  match s with
  | EmptyString => false
  | String c s' => Ascii.eqb c "." || hasPoint s'
  end.

(** Where [tokenizeNumbers] stands once it has stepped over spaces and
    over a unary minus, with the flag it has set. *)
Definition afterSign (eq : string) : bool * string :=
  if Ascii.eqb (peek (skipSpaces eq)) "-"
  then (true, advance (skipSpaces eq)) else (false, skipSpaces eq).

(** Number of characters [makeFloat] consumes: [eptr - eq]. *)
Definition scanLength (eq : string) : nat :=
  String.length eq - String.length (snd (makeFloat eq)).

(** The characters at which a scan consumes something. *)
Definition startsNumber (c : ascii) : bool :=
  isDigit c || Ascii.eqb c "." || Ascii.eqb c "-".

(** The exponent of the last place in binary32. *)
Definition fexp32 (e : Z) : Z := fexp prec32 emax32 e.

Definition one : float := of_int 1.

(** The sign bit is clear (and the value is a number). *)
Definition nonNegative (x : spec_float) : bool :=
  match x with
  | S754_zero s | S754_infinity s | S754_finite s _ _ => negb s
  | S754_nan => false
  end.

(** [x == 0] on [float]: both signed zeros, nothing else. *)
Definition isZero (x : float) : bool :=
  match x with
  | S754_zero _ => true
  | _ => false
  end.

(** ** Notions used to state further properties *)

Fixpoint allSpaces (s : string) : bool :=
  match s with
  | EmptyString => true
  | String c s' => Ascii.eqb c " " && allSpaces s'
  end.

(** What a scan may consume: an optional minus sign, then digits with
    at most one decimal point. *)
Definition scannedText (pre : string) : bool :=
  if Ascii.eqb (peek pre) "-" then literalFrom false (advance pre)
  else literalFrom false pre.

(** [eq'] is a later position of the cursor [eq] in the same text. *)
Definition suffixOf (eq' eq : string) : Prop := exists pre, eq = pre ++ eq'.

(** The characters the grammar reacts to when it looks at the cursor,
    the closing parenthesis apart. *)
Definition reserved : list ascii :=
  (" " :: "." :: "(" :: operators)%char.

(** A text that the grammar treats like the end of the input when it
    follows an expression: its first character is no digit and is not
    [reserved]. *)
Definition neutral (t : string) : bool :=
  negb (isDigit (peek t)) && negb (existsb (Ascii.eqb (peek t)) reserved).

(** A result with the parenthesis counter replaced. *)
Definition withCounter {V : Type} (cp : Z) (r : result (parsed V)) : result (parsed V) :=
  match r with
  | Ok (v, eq, _) => Ok (v, eq, cp)
  | Abort e => Abort e
  | OutOfFuel => OutOfFuel
  end.

(** A value of the binary32 format: zero, infinity, not-a-number, or a
    mantissa in canonical position with its exponent in range. *)
Definition valid32 (x : float) : bool := valid_binary prec32 emax32 x.


(** * Properties *)

(** ** The cursor only moves forward *)

Lemma length_advance eq : (String.length (advance eq) <= String.length eq)%nat.
Proof. destruct eq; simpl; lia. Qed.

Lemma length_advance_lt eq :
  peek eq <> NUL -> (String.length (advance eq) < String.length eq)%nat.
Proof. destruct eq; simpl; [congruence | lia]. Qed.

Lemma length_skipSpaces eq : (String.length (skipSpaces eq) <= String.length eq)%nat.
Proof.
  induction eq as [|c eq IH]; simpl; [lia|].
  destruct (Ascii.eqb c " "); simpl; lia.
Qed.

Lemma length_makeFloat_loop eq b a d f :
  (String.length (snd (makeFloat_loop eq b a d f)) <= String.length eq)%nat.
Proof.
  revert b a d f; induction eq as [|c eq IH]; intros; simpl; [lia|].
  destruct (isDigit c).
  - destruct f; (etransitivity; [apply IH | lia]).
  - destruct (Ascii.eqb c "."); [destruct f|]; simpl; try lia.
    etransitivity; [apply IH | lia].
Qed.

Lemma length_makeFloat eq :
  (String.length (snd (makeFloat eq)) <= String.length eq)%nat.
Proof.
  unfold makeFloat.
  destruct (Ascii.eqb (peek eq) "-").
  - pose proof (length_makeFloat_loop (advance eq) (of_int 0) (of_int 0) 1 false) as H.
    pose proof (length_advance eq).
    destruct (makeFloat_loop _ _ _ _ _) as [[[? ?] ?] ?]; simpl in *; lia.
  - pose proof (length_makeFloat_loop eq (of_int 0) (of_int 0) 1 false) as H.
    destruct (makeFloat_loop _ _ _ _ _) as [[[? ?] ?] ?]; simpl in *; lia.
Qed.

Lemma peek_eqb_not_NUL eq c : Ascii.eqb (peek eq) c = true -> c <> NUL -> peek eq <> NUL.
Proof. intros H Hc. apply Ascii.eqb_eq in H. congruence. Qed.

Ltac inv H := inversion H; subst; clear H.

Ltac break_bind H :=
  match type of H with
  | bind ?r _ = _ =>
      let E := fresh "E" in
      destruct r as [[[? ?] ?]| |] eqn:E; simpl in H; try discriminate H
  end.

Lemma consumes n :
  (forall eq cp v eq' cp', tokenizeNumbers n eq cp = Ok (v, eq', cp') ->
     (String.length eq' < String.length eq)%nat) /\
  (forall eq cp v eq' cp', tokenizeMulDiv n eq cp = Ok (v, eq', cp') ->
     (String.length eq' < String.length eq)%nat) /\
  (forall first eq cp v eq' cp', tokenizeMulDiv_loop n first eq cp = Ok (v, eq', cp') ->
     (String.length eq' <= String.length eq)%nat) /\
  (forall eq cp v eq' cp', tokenizeExpression n eq cp = Ok (v, eq', cp') ->
     (String.length eq' < String.length eq)%nat) /\
  (forall first eq cp v eq' cp', tokenizeExpression_loop n first eq cp = Ok (v, eq', cp') ->
     (String.length eq' <= String.length eq)%nat).
Proof.
  induction n as [|n (IHn & IHm & IHml & IHe & IHel)].
  { repeat split; intros; discriminate. }
  repeat split; intros; simpl in H.
  - pose proof (length_skipSpaces eq) as Hs.
    set (eq1 := skipSpaces eq) in *.
    assert (Hneg : exists hn eq2,
      (if Ascii.eqb (peek eq1) "-" then (true, advance eq1) else (false, eq1)) = (hn, eq2)
      /\ (String.length eq2 <= String.length eq1)%nat).
    { destruct (Ascii.eqb (peek eq1) "-"); do 2 eexists; split; eauto.
      apply length_advance. }
    destruct Hneg as (hn & eq2 & Hneg & Hle). rewrite Hneg in H.
    destruct (Ascii.eqb (peek eq2) "(") eqn:Hp.
    + break_bind H.
      destruct (Ascii.eqb (peek s) ")") eqn:Hc; inv H.
      apply IHe in E.
      pose proof (length_advance eq2). pose proof (length_advance s). lia.
    + pose proof (length_makeFloat eq2) as Hm.
      destruct (makeFloat eq2) as [toNumber eptr]; simpl in Hm.
      destruct (samePointer eptr eq2) eqn:Hsame; inv H.
      unfold samePointer in Hsame. apply Nat.eqb_neq in Hsame. lia.
  - break_bind H. apply IHn in E. apply IHml in H. lia.
  - pose proof (length_skipSpaces eq) as Hs.
    set (eq1 := skipSpaces eq) in *.
    destruct (negb (Ascii.eqb (peek eq1) "*") && negb (Ascii.eqb (peek eq1) "/")).
    + inv H. lia.
    + break_bind H. apply IHn in E. pose proof (length_advance eq1).
      destruct (negb (Ascii.eqb (peek eq1) "/")).
      * apply IHml in H. lia.
      * destruct (fneq _ _); [|discriminate]. apply IHml in H. lia.
  - break_bind H. apply IHm in E. apply IHel in H. lia.
  - pose proof (length_skipSpaces eq) as Hs.
    set (eq1 := skipSpaces eq) in *.
    destruct (negb (Ascii.eqb (peek eq1) "+") && negb (Ascii.eqb (peek eq1) "-")).
    + inv H. lia.
    + break_bind H. apply IHm in E. pose proof (length_advance eq1).
      destruct (Ascii.eqb (peek eq1) "+"); apply IHel in H; lia.
Qed.

(** ** The parenthesis counter is restored *)

Lemma wrap32_inInt z : inInt (wrap32 z).
Proof. unfold inInt, wrap32. pose proof (Z.mod_pos_bound (z + 2 ^ 31) (2 ^ 32)). lia. Qed.

Lemma wrap32_id z : inInt z -> wrap32 z = z.
Proof. unfold inInt, wrap32. intros H. rewrite Z.mod_small; lia. Qed.

Lemma wrap32_succ_pred z : inInt z -> wrap32 (wrap32 (z + 1) - 1) = z.
Proof.
  unfold inInt, wrap32. intros H.
  destruct (Z.eq_dec z (2 ^ 31 - 1)) as [->|Hne].
  - reflexivity.
  - rewrite (Z.mod_small (z + 1 + 2 ^ 31)) by lia.
    rewrite Z.mod_small; lia.
Qed.

Lemma parenDepth_preserved n :
  (forall eq cp v eq' cp', inInt cp -> tokenizeNumbers n eq cp = Ok (v, eq', cp') -> cp' = cp) /\
  (forall eq cp v eq' cp', inInt cp -> tokenizeMulDiv n eq cp = Ok (v, eq', cp') -> cp' = cp) /\
  (forall first eq cp v eq' cp', inInt cp ->
     tokenizeMulDiv_loop n first eq cp = Ok (v, eq', cp') -> cp' = cp) /\
  (forall eq cp v eq' cp', inInt cp -> tokenizeExpression n eq cp = Ok (v, eq', cp') -> cp' = cp) /\
  (forall first eq cp v eq' cp', inInt cp ->
     tokenizeExpression_loop n first eq cp = Ok (v, eq', cp') -> cp' = cp).
Proof.
  induction n as [|n (IHn & IHm & IHml & IHe & IHel)].
  { repeat split; intros; discriminate. }
  repeat split.
  - intros eq cp v eq' cp' Hin H; simpl in H.
    destruct (if Ascii.eqb (peek (skipSpaces eq)) "-" then _ else _) as [hn eq2].
    destruct (Ascii.eqb (peek eq2) "(").
    + break_bind H.
      destruct (Ascii.eqb (peek _) ")"); inv H.
      apply IHe in E; [|apply wrap32_inInt]. subst.
      apply wrap32_succ_pred; assumption.
    + destruct (makeFloat eq2) as [toNumber eptr].
      destruct (samePointer eptr eq2); inv H. reflexivity.
  - intros eq cp v eq' cp' Hin H; simpl in H.
    break_bind H. apply IHn in E; [|assumption]. subst. eapply IHml; eauto.
  - intros first eq cp v eq' cp' Hin H; simpl in H.
    destruct (negb _ && negb _).
    + inv H. reflexivity.
    + break_bind H. apply IHn in E; [|assumption]. subst.
      destruct (negb _); [eapply IHml; eauto|].
      destruct (fneq _ _); [eapply IHml; eauto|discriminate].
  - intros eq cp v eq' cp' Hin H; simpl in H.
    break_bind H. apply IHm in E; [|assumption]. subst. eapply IHel; eauto.
  - intros first eq cp v eq' cp' Hin H; simpl in H.
    destruct (negb _ && negb _).
    + inv H. reflexivity.
    + break_bind H. apply IHm in E; [|assumption]. subst.
      destruct (Ascii.eqb _ "+"); eapply IHel; eauto.
Qed.

(** ** Fuel: more never changes a result, and [fuelFor] is enough *)

Lemma bind_fuel {A B} (r r' : result A) (k k' : A -> result B) :
  (r <> OutOfFuel -> r' = r) ->
  (forall a, r = Ok a -> k a <> OutOfFuel -> k' a = k a) ->
  bind r k <> OutOfFuel -> bind r' k' = bind r k.
Proof.
  intros Hr Hk H. destruct r as [a| |]; simpl in *.
  - rewrite Hr by discriminate. simpl. apply Hk; auto.
  - rewrite Hr by discriminate. reflexivity.
  - congruence.
Qed.

Lemma fuel_step n :
  (forall eq cp, tokenizeNumbers n eq cp <> OutOfFuel ->
     tokenizeNumbers (S n) eq cp = tokenizeNumbers n eq cp) /\
  (forall eq cp, tokenizeMulDiv n eq cp <> OutOfFuel ->
     tokenizeMulDiv (S n) eq cp = tokenizeMulDiv n eq cp) /\
  (forall first eq cp, tokenizeMulDiv_loop n first eq cp <> OutOfFuel ->
     tokenizeMulDiv_loop (S n) first eq cp = tokenizeMulDiv_loop n first eq cp) /\
  (forall eq cp, tokenizeExpression n eq cp <> OutOfFuel ->
     tokenizeExpression (S n) eq cp = tokenizeExpression n eq cp) /\
  (forall first eq cp, tokenizeExpression_loop n first eq cp <> OutOfFuel ->
     tokenizeExpression_loop (S n) first eq cp = tokenizeExpression_loop n first eq cp).
Proof.
  induction n as [|n (IHn & IHm & IHml & IHe & IHel)].
  { repeat split; intros; simpl in *; congruence. }
  remember (S n) as m eqn:Hm.
  repeat split; intros; simpl; subst m; simpl in H |- *.
  - destruct (if Ascii.eqb (peek (skipSpaces eq)) "-" then _ else _) as [hn eq2].
    destruct (Ascii.eqb (peek eq2) "("); [|reflexivity].
    revert H. apply bind_fuel; [apply IHe|reflexivity].
  - revert H. apply bind_fuel; [apply IHn|].
    intros [[v e] c] _. apply IHml.
  - destruct (negb _ && negb _); [reflexivity|].
    revert H. apply bind_fuel; [apply IHn|].
    intros [[v e] c] _.
    destruct (negb _); [apply IHml|].
    destruct (fneq _ _); [apply IHml|reflexivity].
  - revert H. apply bind_fuel; [apply IHm|].
    intros [[v e] c] _. apply IHel.
  - destruct (negb _ && negb _); [reflexivity|].
    revert H. apply bind_fuel; [apply IHm|].
    intros [[v e] c] _.
    destruct (Ascii.eqb _ "+"); apply IHel.
Qed.

Lemma fuel_mono_expression n m eq cp :
  (n <= m)%nat -> tokenizeExpression n eq cp <> OutOfFuel ->
  tokenizeExpression m eq cp = tokenizeExpression n eq cp.
Proof.
  induction 1 as [|m Hle IH]; intros H; [reflexivity|].
  specialize (IH H).
  destruct (fuel_step m) as (_ & _ & _ & He & _).
  rewrite He; congruence.
Qed.

Lemma bind_not_OutOfFuel {A B} (r : result A) (k : A -> result B) :
  r <> OutOfFuel -> (forall a, r = Ok a -> k a <> OutOfFuel) ->
  bind r k <> OutOfFuel.
Proof. destruct r; simpl; auto; congruence. Qed.

Lemma fuel_suffices n :
  (forall eq cp, (3 * String.length eq + 1 <= n)%nat ->
     tokenizeNumbers n eq cp <> OutOfFuel) /\
  (forall eq cp, (3 * String.length eq + 2 <= n)%nat ->
     tokenizeMulDiv n eq cp <> OutOfFuel) /\
  (forall first eq cp, (3 * String.length eq + 1 <= n)%nat ->
     tokenizeMulDiv_loop n first eq cp <> OutOfFuel) /\
  (forall eq cp, (3 * String.length eq + 3 <= n)%nat ->
     tokenizeExpression n eq cp <> OutOfFuel) /\
  (forall first eq cp, (3 * String.length eq + 1 <= n)%nat ->
     tokenizeExpression_loop n first eq cp <> OutOfFuel).
Proof.
  induction n as [|n (IHn & IHm & IHml & IHe & IHel)].
  { repeat split; intros; lia. }
  destruct (consumes n) as (Cn & Cm & _ & _ & _).
  repeat split; intros; simpl.
  - pose proof (length_skipSpaces eq) as Hs.
    set (eq1 := skipSpaces eq) in *.
    assert (Hneg : exists hn eq2,
      (if Ascii.eqb (peek eq1) "-" then (true, advance eq1) else (false, eq1)) = (hn, eq2)
      /\ (String.length eq2 <= String.length eq1)%nat).
    { destruct (Ascii.eqb (peek eq1) "-"); do 2 eexists; split; eauto.
      apply length_advance. }
    destruct Hneg as (hn & eq2 & Hneg & Hle). rewrite Hneg.
    destruct (Ascii.eqb (peek eq2) "(") eqn:Hp.
    + apply bind_not_OutOfFuel.
      * apply IHe.
        assert (String.length (advance eq2) < String.length eq2)%nat.
        { apply length_advance_lt. eapply peek_eqb_not_NUL; eauto. discriminate. }
        lia.
      * intros [[v e] c] _. destruct (Ascii.eqb (peek e) ")"); discriminate.
    + destruct (makeFloat eq2) as [toNumber eptr].
      destruct (samePointer eptr eq2); discriminate.
  - apply bind_not_OutOfFuel; [apply IHn; lia|].
    intros [[v e] c] Hr. apply Cn in Hr. apply IHml. lia.
  - pose proof (length_skipSpaces eq) as Hs.
    set (eq1 := skipSpaces eq) in *.
    destruct (negb (Ascii.eqb (peek eq1) "*") && negb (Ascii.eqb (peek eq1) "/")) eqn:Hop;
      [discriminate|].
    assert (String.length (advance eq1) < String.length eq1)%nat.
    { apply length_advance_lt. intros Hnul. rewrite Hnul in Hop. discriminate. }
    apply bind_not_OutOfFuel; [apply IHn; lia|].
    intros [[v e] c] Hr. apply Cn in Hr.
    destruct (negb (Ascii.eqb (peek eq1) "/")); [apply IHml; lia|].
    destruct (fneq _ _); [apply IHml; lia|discriminate].
  - apply bind_not_OutOfFuel; [apply IHm; lia|].
    intros [[v e] c] Hr. apply Cm in Hr. apply IHel. lia.
  - pose proof (length_skipSpaces eq) as Hs.
    set (eq1 := skipSpaces eq) in *.
    destruct (negb (Ascii.eqb (peek eq1) "+") && negb (Ascii.eqb (peek eq1) "-")) eqn:Hop;
      [discriminate|].
    assert (String.length (advance eq1) < String.length eq1)%nat.
    { apply length_advance_lt. intros Hnul. rewrite Hnul in Hop. discriminate. }
    apply bind_not_OutOfFuel; [apply IHm; lia|].
    intros [[v e] c] Hr. apply Cm in Hr.
    destruct (Ascii.eqb _ "+"); apply IHel; lia.
Qed.

Lemma tokenizeExpression_fuelFor eq cp :
  tokenizeExpression (fuelFor eq) eq cp <> OutOfFuel.
Proof. apply fuel_suffices. unfold fuelFor. lia. Qed.

Lemma fuel_irrelevant n eq cp r :
  tokenizeExpression n eq cp = r -> r <> OutOfFuel ->
  tokenizeExpression (fuelFor eq) eq cp = r.
Proof.
  intros H Hr. subst r.
  destruct (Nat.le_ge_cases n (fuelFor eq)) as [Hle|Hle].
  - apply fuel_mono_expression; assumption.
  - symmetry. apply fuel_mono_expression; [assumption|].
    apply tokenizeExpression_fuelFor.
Qed.

Theorem solve_total eq : solve eq <> OutOfFuel.
Proof.
  unfold solve. apply bind_not_OutOfFuel; [apply tokenizeExpression_fuelFor|].
  intros [[v e] c] _. destruct (Z.eqb c 0); discriminate.
Qed.

(** ** binary32: rounding, and multiplication by 1 and -1

    [Zdigits2] is the binary logarithm plus one, [shr] is a shift to
    the right, and rounding a mantissa that is long enough yields a
    canonical one.  From these, a product with 1 is a fixed point of
    the product with 1, and a product with -1 is its opposite. *)

Lemma digits2_pos_size p : digits2_pos p = Pos.size p.
Proof. induction p; simpl; congruence. Qed.

Lemma Zdigits2_log2 m : 0 < m -> Zdigits2 m = Z.log2 m + 1.
Proof.
  destruct m as [|p|p]; try lia. intros _. simpl.
  rewrite digits2_pos_size. destruct p; simpl; lia.
Qed.

Lemma Zdigits2_pos m : 0 < m -> 0 < Zdigits2 m.
Proof. destruct m; simpl; lia. Qed.

Lemma Zdigits2_shiftr m n :
  0 < n -> 0 < Z.shiftr m n -> Zdigits2 (Z.shiftr m n) = Zdigits2 m - n.
Proof.
  intros Hn Hpos.
  assert (0 < m) as Hm.
  { destruct (Z.lt_trichotomy m 0) as [H|[H|H]]; [|subst; rewrite Z.shiftr_0_l in Hpos; lia|lia].
    assert (Z.shiftr m n < 0) by (apply Z.shiftr_neg; lia). lia. }
  rewrite !Zdigits2_log2 by assumption.
  rewrite Z.log2_shiftr by assumption.
  destruct (Z.le_gt_cases n (Z.log2 m)) as [H|H]; [lia|].
  rewrite Z.shiftr_eq_0 in Hpos; lia.
Qed.

Lemma Zdigits2_shiftr_0 m n :
  0 < n -> 0 <= m -> Z.shiftr m n = 0 -> Zdigits2 m <= n.
Proof.
  intros Hn Hm H. destruct (Z.eq_dec m 0) as [->|Hne]; [simpl; lia|].
  rewrite Zdigits2_log2 by lia.
  apply Z.shiftr_eq_0_iff in H. destruct H as [H|[_ H]]; lia.
Qed.

Lemma Zdigits2_succ m :
  0 <= m -> Zdigits2 (m + 1) = Zdigits2 m \/ Zdigits2 (m + 1) = Zdigits2 m + 1.
Proof.
  intros Hm. destruct (Z.eq_dec m 0) as [->|Hne]; [right; reflexivity|].
  rewrite !Zdigits2_log2 by lia.
  destruct (Z.log2_succ_or m) as [H|H]; unfold Z.succ in H; lia.
Qed.

Lemma shr_1_m r : 0 <= shr_m r -> shr_m (shr_1 r) = Z.shiftr (shr_m r) 1.
Proof.
  destruct r as [m rb sb]. simpl. intros Hm.
  rewrite <- Z.div2_spec.
  destruct m as [|[p|p|]|p]; try lia; reflexivity.
Qed.

Lemma shr_1_nonneg r : 0 <= shr_m r -> 0 <= shr_m (shr_1 r).
Proof.
  intros H. rewrite shr_1_m by assumption. apply Z.shiftr_nonneg; assumption.
Qed.

Lemma iter_shr_1_m p : forall r,
  0 <= shr_m r -> shr_m (iter_pos shr_1 p r) = Z.shiftr (shr_m r) (Zpos p).
Proof.
  induction p as [p IH|p IH|]; intros r Hr; simpl.
  - pose proof (shr_1_nonneg r Hr) as H1.
    assert (0 <= shr_m (iter_pos shr_1 p (shr_1 r))) as H2
      by (rewrite IH by assumption; apply Z.shiftr_nonneg; assumption).
    rewrite IH, IH, shr_1_m by assumption.
    rewrite !Z.shiftr_shiftr by lia. f_equal. lia.
  - assert (0 <= shr_m (iter_pos shr_1 p r)) as H2
      by (rewrite IH by assumption; apply Z.shiftr_nonneg; assumption).
    rewrite IH, IH by assumption.
    rewrite !Z.shiftr_shiftr by lia. f_equal. lia.
  - apply shr_1_m; assumption.
Qed.

Lemma fexp32_eq e : fexp32 e = Z.max (e - 24) (-149).
Proof. reflexivity. Qed.

(** First stage of rounding: how far the mantissa is shifted. *)
Lemma shr_fexp_cases m e l :
  0 <= m ->
  let n := fexp32 (Zdigits2 m + e) - e in
  (n <= 0 /\ shr_fexp prec32 emax32 m e l = (shr_record_of_loc m l, e)) \/
  (0 < n /\ exists r, shr_fexp prec32 emax32 m e l = (r, e + n) /\
                     shr_m r = Z.shiftr m n).
Proof.
  intros Hm n. unfold shr_fexp, shr. fold (fexp32 (Zdigits2 m + e)). fold n.
  destruct n as [|p|p] eqn:Hn.
  - left. split; [lia|reflexivity].
  - right. split; [lia|]. eexists. split; [reflexivity|].
    assert (shr_m (shr_record_of_loc m l) = m) as Hrec
      by (destruct l as [|[| |]]; reflexivity).
    rewrite iter_shr_1_m by (rewrite Hrec; assumption).
    rewrite Hrec. reflexivity.
  - left. split; [lia|reflexivity].
Qed.

Lemma round_cases r :
  let m1 := round_nearest_even (shr_m r) (loc_of_shr_record r) in
  m1 = shr_m r \/ m1 = shr_m r + 1.
Proof.
  destruct r as [m [|] [|]]; simpl; auto.
  destruct (Z.even m); auto.
Qed.

Lemma binary_round_aux_canonical s M E s' m' e' :
  0 < M -> E <= fexp32 (Zdigits2 M + E) ->
  binary_round_aux prec32 emax32 s M E loc_Exact = S754_finite s' m' e' ->
  fexp32 (Zpos (digits2_pos m') + e') = e' /\ e' <= 104 /\ s' = s.
Proof.
  intros HM Hpre. unfold binary_round_aux.
  assert (0 <= M) as HM0 by lia.
  destruct (shr_fexp_cases M E loc_Exact HM0) as [[Hn H1]|[Hn (r & H1 & Hr)]];
    rewrite H1; clear H1.
  - (* no shift: the mantissa is kept *)
    cbn [shr_record_of_loc shr_m loc_of_shr_record round_nearest_even].
    destruct (shr_fexp_cases M E loc_Exact HM0) as [[_ H2]|[Hn2 _]]; [|lia].
    rewrite H2. cbn [shr_record_of_loc shr_m].
    destruct M as [|p|p]; try lia.
    destruct (Z.leb_spec E (emax32 - prec32)) as [Hle|Hgt]; [|discriminate].
    intros H. inversion H; subst. change (emax32 - prec32) with 104 in Hle.
    cbv zeta in Hn. cbn [Zdigits2] in Hn, Hpre. rewrite fexp32_eq in *.
    repeat split; lia.
  - (* the mantissa is shifted, then rounded *)
    remember (fexp32 (Zdigits2 M + E) - E) as n eqn:Hndef.
    assert (0 <= shr_m r) as Hr0 by (rewrite Hr; apply Z.shiftr_nonneg; lia).
    pose proof (round_cases r) as Hround. cbv zeta in Hround.
    remember (round_nearest_even (shr_m r) (loc_of_shr_record r)) as m1 eqn:Hm1def.
    clear Hm1def.
    assert (0 <= m1) as Hm1 by lia.
    destruct (shr_fexp_cases m1 (E + n) loc_Exact Hm1)
      as [[Hn1 H2]|[Hn1 (r2 & H2 & Hr2)]]; rewrite H2; clear H2.
    + cbn [shr_record_of_loc shr_m].
      destruct m1 as [|p|p] eqn:Hp; try discriminate.
      destruct (Z.leb_spec (E + n) (emax32 - prec32)) as [Hle|Hgt]; [|discriminate].
      intros H. inversion H; subst s' m' e'. change (emax32 - prec32) with 104 in Hle.
      change (Zpos (digits2_pos p)) with (Zdigits2 (Zpos p)). rewrite <- Hp in *.
      repeat split; try lia.
      destruct (Z.eq_dec (shr_m r) 0) as [Hz|Hnz].
      * assert (Zdigits2 M <= n) by (apply Zdigits2_shiftr_0; lia).
        assert (m1 = 1) as -> by lia.
        change (Zdigits2 1) with 1 in *. rewrite fexp32_eq in *. lia.
      * assert (Zdigits2 (shr_m r) = Zdigits2 M - n)
          by (rewrite Hr; apply Zdigits2_shiftr; lia).
        pose proof (Zdigits2_succ (shr_m r) Hr0).
        rewrite fexp32_eq in *.
        destruct Hround as [Hc|Hc]; rewrite Hc in *; lia.
    + destruct (shr_m r2) as [|p|p] eqn:Hp; try discriminate.
      remember (fexp32 (Zdigits2 m1 + (E + n)) - (E + n)) as n1 eqn:Hn1def.
      destruct (Z.leb_spec (E + n + n1) (emax32 - prec32)) as [Hle|Hgt]; [|discriminate].
      intros H. inversion H; subst s' m' e'. change (emax32 - prec32) with 104 in Hle.
      change (Zpos (digits2_pos p)) with (Zdigits2 (Zpos p)).
      assert (0 < Z.shiftr m1 n1) as Hpos by lia.
      rewrite Hr2.
      repeat split; try lia.
      rewrite Zdigits2_shiftr by lia.
      rewrite !fexp32_eq in *. lia.
Qed.

Lemma Zdigits2_scaled m : Zdigits2 (Zpos (8388608 * m)) = Zpos (digits2_pos m) + 23.
Proof. cbn [Pos.mul Zdigits2 digits2_pos]. lia. Qed.

Lemma binary_round_aux_scaled s m e :
  fexp32 (Zpos (digits2_pos m) + e) = e -> e <= 104 ->
  binary_round_aux prec32 emax32 s (Zpos (8388608 * m)) (-23 + e) loc_Exact =
  S754_finite s m e.
Proof.
  intros Hcanon Hle. unfold binary_round_aux, shr_fexp.
  fold (fexp32 (Zdigits2 (Zpos (8388608 * m)) + (-23 + e))).
  rewrite Zdigits2_scaled.
  replace (Zpos (digits2_pos m) + 23 + (-23 + e)) with (Zpos (digits2_pos m) + e) by lia.
  rewrite Hcanon. replace (e - (-23 + e)) with 23 by lia.
  cbn [Pos.mul shr_record_of_loc shr iter_pos shr_1 orb shr_m loc_of_shr_record
       round_nearest_even Zdigits2].
  fold (fexp32 (Zpos (digits2_pos m) + (-23 + e + 23))).
  replace (-23 + e + 23) with e by lia.
  rewrite Hcanon, Z.sub_diag. cbn [shr shr_m].
  destruct (Z.leb_spec e (emax32 - prec32)) as [_|Hgt]; [reflexivity|].
  change (emax32 - prec32) with 104 in Hgt. lia.
Qed.

Lemma SFopp_involutive x : SFopp (SFopp x) = x.
Proof. destruct x as [s|s| |s m e]; simpl; rewrite ?negb_involutive; reflexivity. Qed.

Lemma binary_round_aux_sign s m e l :
  binary_round_aux prec32 emax32 (negb s) m e l =
  SFopp (binary_round_aux prec32 emax32 s m e l).
Proof.
  unfold binary_round_aux.
  destruct (shr_fexp prec32 emax32 m e l) as [r e1].
  destruct (shr_fexp prec32 emax32 _ e1 loc_Exact) as [r2 e2].
  destruct (shr_m r2); try reflexivity.
  destruct (Z.leb e2 (emax32 - prec32)); reflexivity.
Qed.

Lemma fmul_neg1_l y : fmul (of_int (-1)) y = SFopp (fmul one y).
Proof.
  destruct y as [s|s| |s m e]; try reflexivity.
  unfold fmul, SFmul. change (of_int (-1)) with (S754_finite true 8388608 (-23)).
  change one with (S754_finite false 8388608 (-23)). cbv iota beta.
  change (xorb true s) with (negb (xorb false s)).
  apply binary_round_aux_sign.
Qed.

Lemma fmul_neg1_r x : fmul x (of_int (-1)) = SFopp (fmul x one).
Proof.
  destruct x as [s|s| |s m e]; try (simpl; rewrite ?xorb_false_r, ?xorb_true_r; reflexivity).
  unfold fmul, SFmul. change (of_int (-1)) with (S754_finite true 8388608 (-23)).
  change one with (S754_finite false 8388608 (-23)). cbv iota beta.
  rewrite xorb_true_r, xorb_false_r.
  apply binary_round_aux_sign.
Qed.

Lemma fmul_opp_one x : fmul (SFopp x) one = SFopp (fmul x one).
Proof.
  destruct x as [s|s| |s m e]; try (simpl; rewrite ?xorb_false_r; reflexivity).
  unfold fmul, SFmul, SFopp at 1. change one with (S754_finite false 8388608 (-23)).
  cbv iota beta. rewrite !xorb_false_r.
  apply binary_round_aux_sign.
Qed.

Lemma fmul_one_comm x : fmul x one = fmul one x.
Proof.
  destruct x as [s|s| |s m e]; try (simpl; rewrite ?xorb_false_r; reflexivity).
  unfold fmul, SFmul. change one with (S754_finite false 8388608 (-23)).
  cbv iota beta. rewrite xorb_false_r, Pos.mul_comm, Z.add_comm. reflexivity.
Qed.

Lemma fmul_one_idempotent y : fmul one (fmul one y) = fmul one y.
Proof.
  destruct y as [s|s| |s m e]; try reflexivity.
  destruct (fmul one (S754_finite s m e)) as [s'|s'| |s' m' e'] eqn:Hz; try reflexivity.
  unfold fmul, SFmul in Hz |- *. change one with (S754_finite false 8388608 (-23)) in Hz |- *.
  cbv iota beta in Hz |- *.
  apply binary_round_aux_canonical in Hz.
  - destruct Hz as (Hcanon & Hle & _).
    change (xorb false s') with s'. apply binary_round_aux_scaled; assumption.
  - lia.
  - rewrite Zdigits2_scaled, fexp32_eq. lia.
Qed.

Lemma fmul_neg1_neg1 y :
  fmul (fmul (of_int (-1)) y) (of_int (-1)) = fmul (of_int 1) y.
Proof.
  rewrite fmul_neg1_r, fmul_neg1_l, fmul_opp_one, SFopp_involutive.
  rewrite fmul_one_comm. apply fmul_one_idempotent.
Qed.

Lemma fmul_one_neg1 y :
  fmul (fmul (of_int 1) y) (of_int (-1)) = fmul (of_int (-1)) y.
Proof.
  rewrite fmul_neg1_r, fmul_neg1_l. fold one.
  rewrite fmul_one_comm, fmul_one_idempotent. reflexivity.
Qed.

(** ** Signs: rounding keeps the sign of what it rounds *)

Section Sign.
Variables prec emax : Z.

Lemma shr_fexp_nonneg m e l :
  0 <= m -> 0 <= shr_m (fst (shr_fexp prec emax m e l)).
Proof.
  intros Hm. unfold shr_fexp, shr.
  assert (shr_m (shr_record_of_loc m l) = m) as Hrec
    by (destruct l as [|[| |]]; reflexivity).
  destruct (fexp prec emax (Zdigits2 m + e) - e) as [|p|p]; cbn [fst];
    rewrite ?iter_shr_1_m, Hrec by (rewrite Hrec; assumption);
    try assumption.
  apply Z.shiftr_nonneg; assumption.
Qed.

Lemma binary_round_aux_nonNegative m e l :
  0 <= m -> nonNegative (binary_round_aux prec emax false m e l) = true.
Proof.
  intros Hm. unfold binary_round_aux.
  pose proof (shr_fexp_nonneg m e l Hm) as H1.
  destruct (shr_fexp prec emax m e l) as [r e1]. cbn [fst] in H1.
  pose proof (round_cases r) as Hround. cbv zeta in Hround.
  assert (0 <= round_nearest_even (shr_m r) (loc_of_shr_record r)) as Hm1 by lia.
  pose proof (shr_fexp_nonneg _ e1 loc_Exact Hm1) as H2.
  destruct (shr_fexp prec emax _ e1 loc_Exact) as [r2 e2]. cbn [fst] in H2.
  destruct (shr_m r2); [reflexivity| |lia].
  destruct (Z.leb e2 (emax - prec)); reflexivity.
Qed.

Lemma binary_round_nonNegative m e :
  nonNegative (binary_round prec emax false m e) = true.
Proof.
  unfold binary_round. destruct (shl_align m e _) as [mz ez].
  apply binary_round_aux_nonNegative. lia.
Qed.

Lemma binary_normalize_nonNegative z e :
  0 <= z -> nonNegative (binary_normalize prec emax z e false) = true.
Proof.
  intros Hz. destruct z as [|p|p]; [reflexivity| |lia].
  apply binary_round_nonNegative.
Qed.

Lemma SFmul_nonNegative x y :
  nonNegative x = true -> nonNegative y = true ->
  isZero x = false \/ y <> S754_infinity false ->
  isZero y = false \/ x <> S754_infinity false ->
  nonNegative (SFmul prec emax x y) = true.
Proof.
  destruct x as [[|]|[|]| |[|] mx ex]; try discriminate;
    destruct y as [[|]|[|]| |[|] my ey]; try discriminate; intros _ _ H1 H2;
    try reflexivity;
    try (destruct H1 as [H1|H1]; [discriminate H1|congruence]);
    try (destruct H2 as [H2|H2]; [discriminate H2|congruence]).
  apply binary_round_aux_nonNegative. lia.
Qed.

Lemma SFadd_nonNegative x y :
  nonNegative x = true -> nonNegative y = true ->
  nonNegative (SFadd prec emax x y) = true.
Proof.
  destruct x as [[|]|[|]| |[|] mx ex]; try discriminate;
    destruct y as [[|]|[|]| |[|] my ey]; try discriminate; intros _ _;
    try reflexivity.
  unfold SFadd. apply binary_normalize_nonNegative. cbn [cond_Zopp]. lia.
Qed.

Lemma convert_nonNegative x :
  nonNegative x = true -> nonNegative (convert prec emax x) = true.
Proof.
  destruct x as [s|s| |[|] m e]; try discriminate; try (intros H; exact H).
  intros _. apply binary_round_nonNegative.
Qed.
End Sign.


(** ** The scanner on literals *)

Lemma length_app (s t : string) :
  String.length (s ++ t) = (String.length s + String.length t)%nat.
Proof. induction s; simpl; congruence. Qed.

Lemma app_empty_r (s : string) : s ++ "" = s.
Proof. induction s; simpl; congruence. Qed.

Lemma makeFloat_loop_stop rest b a d f :
  stopsScan rest = true -> makeFloat_loop rest b a d f = (b, a, d, rest).
Proof.
  unfold stopsScan. destruct rest as [|c r]; simpl; [reflexivity|].
  intros H. apply andb_true_iff in H as [H1 H2].
  apply negb_true_iff in H1, H2. rewrite H1, H2. reflexivity.
Qed.

Lemma makeFloat_loop_app a rest : forall b af d f,
  literalFrom f a = true -> stopsScan rest = true ->
  makeFloat_loop (a ++ rest) b af d f =
  (fst (makeFloat_loop a b af d f), rest).
Proof.
  induction a as [|c a IH]; intros b af d f Hlit Hstop; simpl.
  - apply makeFloat_loop_stop; assumption.
  - simpl in Hlit. destruct (isDigit c).
    + destruct f; apply IH; assumption.
    + apply andb_true_iff in Hlit as [Hlit Hlit'].
      apply andb_true_iff in Hlit as [Hdot Hf].
      rewrite Hdot. apply negb_true_iff in Hf. subst f.
      apply IH; assumption.
Qed.

Lemma isDigit_not c d : isDigit c = true -> isDigit d = false -> Ascii.eqb c d = false.
Proof. intros Hc Hd. apply Ascii.eqb_neq. intros ->. congruence. Qed.

Lemma isDigit_point_false c : isDigit c = true -> Ascii.eqb c "." = false.
Proof. intros H. apply isDigit_not; [assumption|reflexivity]. Qed.

Lemma literal_peek a rest :
  numericLiteral a = true ->
  peek (a ++ rest) = peek a /\
  (isDigit (peek a) = true \/ peek a = "."%char).
Proof.
  destruct a as [|c a]; simpl; [discriminate|]. intros H. split; [reflexivity|].
  destruct (isDigit c); [left; reflexivity|right].
  apply andb_true_iff in H as [H _]. apply andb_true_iff in H as [H _].
  apply Ascii.eqb_eq; assumption.
Qed.

(** A literal does not start with a character that is neither a digit
    nor the decimal point. *)
Lemma literal_first a c :
  numericLiteral a = true -> isDigit c = false -> c <> "."%char ->
  Ascii.eqb (peek a) c = false.
Proof.
  intros Ha Hc Hdot. destruct (literal_peek a "" Ha) as [_ [H|H]].
  - apply isDigit_not; assumption.
  - rewrite H. apply Ascii.eqb_neq. congruence.
Qed.

Ltac first_char a :=
  rewrite ?(literal_first a "-"), ?(literal_first a "("), ?(literal_first a " ")
    by (assumption || reflexivity || discriminate).

Lemma literalFrom_of_literal a : numericLiteral a = true -> literalFrom false a = true.
Proof. destruct a; [discriminate|exact (fun H => H)]. Qed.

Lemma literalValue_unsigned a :
  numericLiteral a = true ->
  literalValue a =
  let '(b, af, d, _) := makeFloat_loop a (of_int 0) (of_int 0) 1 false in
  makeFloat_value 1 b af d.
Proof.
  intros Ha. unfold literalValue, makeFloat. first_char a.
  destruct (makeFloat_loop a _ _ _ _) as [[[b af] d] e]. reflexivity.
Qed.

Lemma literalValue_negative a :
  literalValue (String "-" a) =
  let '(b, af, d, _) := makeFloat_loop a (of_int 0) (of_int 0) 1 false in
  makeFloat_value (-1) b af d.
Proof.
  unfold literalValue, makeFloat. cbn [peek advance]. rewrite Ascii.eqb_refl.
  destruct (makeFloat_loop a _ _ _ _) as [[[b af] d] e]. reflexivity.
Qed.

(** Negating the value of a literal is scanning it with a minus sign. *)
Lemma literalValue_negate a :
  numericLiteral a = true ->
  fmul (literalValue a) (of_int (-1)) = literalValue (String "-" a).
Proof.
  intros Ha. rewrite literalValue_negative, (literalValue_unsigned a) by assumption.
  destruct (makeFloat_loop a _ _ _ _) as [[[b af] d] e].
  unfold makeFloat_value. apply fmul_one_neg1.
Qed.

(** Two minus signs in front of a literal cancel. *)
Lemma literalValue_negate_twice a :
  numericLiteral a = true ->
  fmul (literalValue (String "-" a)) (of_int (-1)) = literalValue a.
Proof.
  intros Ha. rewrite literalValue_negative, (literalValue_unsigned a) by assumption.
  destruct (makeFloat_loop a _ _ _ _) as [[[b af] d] e].
  unfold makeFloat_value. apply fmul_neg1_neg1.
Qed.

Lemma makeFloat_unsigned a rest :
  numericLiteral a = true -> stopsScan rest = true ->
  makeFloat (a ++ rest) = (literalValue a, rest).
Proof.
  intros Ha Hstop. unfold literalValue, makeFloat.
  destruct (literal_peek a rest Ha) as [Hp _]. rewrite Hp. first_char a.
  rewrite makeFloat_loop_app by (apply literalFrom_of_literal || assumption; assumption).
  destruct (makeFloat_loop a (of_int 0) (of_int 0) 1 false) as [[[b af] d] e].
  reflexivity.
Qed.

Lemma signedLiteral_cases a :
  signedLiteral a = true ->
  numericLiteral a = true \/
  exists a', a = String "-" a' /\ numericLiteral a' = true.
Proof.
  unfold signedLiteral. destruct (Ascii.eqb (peek a) "-") eqn:Hm; [|auto].
  intros H. right. destruct a as [|c a']; [discriminate|].
  apply Ascii.eqb_eq in Hm. simpl in Hm. subst c. eauto.
Qed.

Lemma makeFloat_literal a rest :
  signedLiteral a = true -> stopsScan rest = true ->
  makeFloat (a ++ rest) = (literalValue a, rest).
Proof.
  intros Ha Hstop. destruct (signedLiteral_cases a Ha) as [Hu|(a' & -> & Hu)].
  - apply makeFloat_unsigned; assumption.
  - unfold literalValue, makeFloat. cbn [append peek advance]. rewrite Ascii.eqb_refl.
    rewrite makeFloat_loop_app by (apply literalFrom_of_literal || assumption; assumption).
    destruct (makeFloat_loop a' (of_int 0) (of_int 0) 1 false) as [[[b af] d] e].
    reflexivity.
Qed.

Lemma skipSpaces_literal a rest :
  numericLiteral a = true -> skipSpaces (a ++ rest) = a ++ rest.
Proof.
  intros Ha. pose proof (literal_first a " " Ha eq_refl) as H.
  destruct a as [|c a]; [discriminate|]. simpl in *. rewrite H by discriminate. reflexivity.
Qed.

Lemma samePointer_app a rest :
  a <> "" -> samePointer rest (a ++ rest) = false.
Proof.
  intros Ha. unfold samePointer. rewrite length_app.
  apply Nat.eqb_neq. destruct a; [congruence|simpl; lia].
Qed.

Lemma literal_nonempty a : numericLiteral a = true -> a <> "".
Proof. destruct a; [discriminate|discriminate]. Qed.

(** ** Strings of digits have a non-negative value *)

Lemma toDigit_nonneg c : isDigit c = true -> 0 <= toDigit c <= 9.
Proof.
  unfold isDigit, toDigit. intros H. apply andb_true_iff in H as [H1 H2].
  apply Z.leb_le in H1, H2. change (code "0") with 48 in *. change (code "9") with 57 in *.
  lia.
Qed.

Lemma of_int_digit z : 0 <= z <= 9 -> nonNegative (of_int z) = true /\ of_int z <> S754_infinity false.
Proof.
  intros H.
  assert (z = 0 \/ z = 1 \/ z = 2 \/ z = 3 \/ z = 4 \/ z = 5 \/ z = 6 \/ z = 7 \/ z = 8 \/ z = 9)
    as Hz by lia.
  repeat (destruct Hz as [->|Hz]; [split; [reflexivity|discriminate]|]).
  subst. split; [reflexivity|discriminate].
Qed.

Lemma makeFloat_loop_digits d : forall b,
  allDigits d = true -> nonNegative b = true ->
  exists b', makeFloat_loop d b (of_int 0) 1 false = (b', of_int 0, 1, "") /\
             nonNegative b' = true.
Proof.
  induction d as [|c d IH]; intros b Hd Hb.
  - exists b. split; [reflexivity|assumption].
  - simpl in Hd. apply andb_true_iff in Hd as [Hc Hd].
    cbn [makeFloat_loop]. rewrite Hc. apply IH; [assumption|].
    destruct (of_int_digit (toDigit c) (toDigit_nonneg c Hc)) as [Hn Hinf].
    apply SFadd_nonNegative; [|assumption].
    apply SFmul_nonNegative; try assumption; try reflexivity.
    + right. discriminate.
    + left. reflexivity.
Qed.

Lemma literalValue_nonNegative d :
  allDigits d = true -> nonNegative (literalValue d) = true.
Proof.
  intros Hd. unfold literalValue, makeFloat.
  assert (Ascii.eqb (peek d) "-" = false) as ->.
  { destruct d as [|c d]; [reflexivity|]. simpl in *.
    apply andb_true_iff in Hd as [Hc _]. apply isDigit_not; [assumption|reflexivity]. }
  destruct (makeFloat_loop_digits d (of_int 0) Hd eq_refl) as (b' & -> & Hb).
  cbn [fst]. unfold makeFloat_value.
  apply SFmul_nonNegative; try reflexivity.
  - apply SFadd_nonNegative; [assumption|reflexivity].
  - left; reflexivity.
  - right; discriminate.
Qed.

(** ** Unfolding equations of the grammar *)

Lemma tokenizeNumbers_paren n eq cp :
  Ascii.eqb (peek (snd (afterSign eq))) "(" = true ->
  tokenizeNumbers (S n) eq cp =
  bind (tokenizeExpression n (advance (snd (afterSign eq))) (wrap32 (cp + 1)))
    (fun '(calculated, eq', cp') =>
       if Ascii.eqb (peek eq') ")" then
         Ok (negateIf (fst (afterSign eq)) calculated, advance eq', wrap32 (cp' - 1))
       else Abort UnbalancedParentheses).
Proof.
  unfold afterSign. intros H. simpl.
  destruct (Ascii.eqb (peek (skipSpaces eq)) "-"); simpl in *; rewrite H; reflexivity.
Qed.

Lemma tokenizeNumbers_number n eq cp :
  Ascii.eqb (peek (snd (afterSign eq))) "(" = false ->
  tokenizeNumbers (S n) eq cp =
  let '(toNumber, eptr) := makeFloat (snd (afterSign eq)) in
  if samePointer eptr (snd (afterSign eq)) then Abort MalformedNumber
  else Ok (negateIf (fst (afterSign eq)) toNumber, eptr, cp).
Proof.
  unfold afterSign. intros H. simpl.
  destruct (Ascii.eqb (peek (skipSpaces eq)) "-"); simpl in *; rewrite H; reflexivity.
Qed.

Lemma tokenizeNumbers_space n eq cp :
  tokenizeNumbers n (String " " eq) cp = tokenizeNumbers n eq cp.
Proof. destruct n; reflexivity. Qed.

Lemma afterSign_unsigned a rest :
  numericLiteral a = true -> afterSign (a ++ rest) = (false, a ++ rest).
Proof.
  intros Ha. unfold afterSign. rewrite skipSpaces_literal by assumption.
  destruct (literal_peek a rest Ha) as [Hp _]. rewrite Hp. first_char a. reflexivity.
Qed.

Lemma afterSign_minus eq : afterSign (String "-" eq) = (true, eq).
Proof. reflexivity. Qed.

Lemma peek_literal_paren a rest :
  numericLiteral a = true -> Ascii.eqb (peek (a ++ rest)) "(" = false.
Proof.
  intros Ha. destruct (literal_peek a rest Ha) as [Hp _]. rewrite Hp.
  apply literal_first; [assumption|reflexivity|discriminate].
Qed.

(** Factor on a literal, signed or not, returns the scanner's value. *)
Lemma tokenizeNumbers_literal n a rest cp :
  signedLiteral a = true -> stopsScan rest = true ->
  tokenizeNumbers (S n) (a ++ rest) cp = Ok (literalValue a, rest, cp).
Proof.
  intros Ha Hstop. destruct (signedLiteral_cases a Ha) as [Hu|(a' & -> & Hu)].
  - rewrite tokenizeNumbers_number; rewrite afterSign_unsigned by assumption; cbn [fst snd].
    + rewrite makeFloat_unsigned by assumption.
      rewrite samePointer_app by (apply literal_nonempty; assumption). reflexivity.
    + apply peek_literal_paren; assumption.
  - cbn [append].
    rewrite tokenizeNumbers_number; rewrite afterSign_minus; cbn [fst snd].
    + rewrite makeFloat_unsigned by assumption.
      rewrite samePointer_app by (apply literal_nonempty; assumption).
      cbn [negateIf]. rewrite literalValue_negate by assumption. reflexivity.
    + apply peek_literal_paren; assumption.
Qed.

Lemma tokenizeMulDiv_S n eq cp :
  tokenizeMulDiv (S n) eq cp =
  bind (tokenizeNumbers n eq cp)
       (fun '(first, eq, cp) => tokenizeMulDiv_loop n first eq cp).
Proof. reflexivity. Qed.

Lemma tokenizeExpression_S n eq cp :
  tokenizeExpression (S n) eq cp =
  bind (tokenizeMulDiv n eq cp)
       (fun '(first, eq, cp) => tokenizeExpression_loop n (to_double first) eq cp).
Proof. reflexivity. Qed.

Lemma fneq_zero x : fneq x (of_int 0) = negb (isZero x).
Proof. destruct x as [s|s| |s m e]; try reflexivity; destruct s; reflexivity. Qed.

Lemma tokenizeMulDiv_loop_done n first eq cp :
  Ascii.eqb (peek (skipSpaces eq)) "*" = false ->
  Ascii.eqb (peek (skipSpaces eq)) "/" = false ->
  tokenizeMulDiv_loop (S n) first eq cp = Ok (first, skipSpaces eq, cp).
Proof. intros H1 H2. simpl. rewrite H1, H2. reflexivity. Qed.

Lemma tokenizeMulDiv_loop_mul n first eq cp :
  Ascii.eqb (peek (skipSpaces eq)) "*" = true ->
  tokenizeMulDiv_loop (S n) first eq cp =
  bind (tokenizeNumbers n (advance (skipSpaces eq)) cp)
       (fun '(second, eq, cp) => tokenizeMulDiv_loop n (fmul first second) eq cp).
Proof.
  intros H. simpl. rewrite H. apply Ascii.eqb_eq in H. rewrite H. reflexivity.
Qed.

Lemma tokenizeMulDiv_loop_div n first eq cp :
  Ascii.eqb (peek (skipSpaces eq)) "/" = true ->
  tokenizeMulDiv_loop (S n) first eq cp =
  bind (tokenizeNumbers n (advance (skipSpaces eq)) cp)
       (fun '(second, eq, cp) =>
          if isZero second then Abort DivisionByZero
          else tokenizeMulDiv_loop n (fdiv first second) eq cp).
Proof.
  intros H. simpl. rewrite H. apply Ascii.eqb_eq in H. rewrite H. simpl.
  destruct (tokenizeNumbers n _ cp) as [[[second eq'] cp']| |]; try reflexivity.
  simpl. change (S754_zero false) with (of_int 0). rewrite fneq_zero.
  destruct (isZero second); reflexivity.
Qed.

Lemma tokenizeExpression_loop_done n first eq cp :
  Ascii.eqb (peek (skipSpaces eq)) "+" = false ->
  Ascii.eqb (peek (skipSpaces eq)) "-" = false ->
  tokenizeExpression_loop (S n) first eq cp = Ok (to_float first, skipSpaces eq, cp).
Proof. intros H1 H2. simpl. rewrite H1, H2. reflexivity. Qed.

Lemma tokenizeExpression_loop_add n first eq cp :
  Ascii.eqb (peek (skipSpaces eq)) "+" = true ->
  tokenizeExpression_loop (S n) first eq cp =
  bind (tokenizeMulDiv n (advance (skipSpaces eq)) cp)
       (fun '(second, eq, cp) =>
          tokenizeExpression_loop n (dadd first (to_double second)) eq cp).
Proof. intros H. simpl. rewrite H. reflexivity. Qed.

Lemma tokenizeExpression_loop_sub n first eq cp :
  Ascii.eqb (peek (skipSpaces eq)) "-" = true ->
  tokenizeExpression_loop (S n) first eq cp =
  bind (tokenizeMulDiv n (advance (skipSpaces eq)) cp)
       (fun '(second, eq, cp) =>
          tokenizeExpression_loop n (dsub first (to_double second)) eq cp).
Proof.
  intros H. simpl. rewrite H. apply Ascii.eqb_eq in H. rewrite H. reflexivity.
Qed.

(** A run of [tokenizeExpression] with any fuel that ends with the
    counter at zero is what [solve] returns. *)
Lemma solve_of_run n eq v rest :
  tokenizeExpression n eq 0 = Ok (v, rest, 0) -> solve eq = Ok v.
Proof.
  intros H. unfold solve. erewrite fuel_irrelevant by (exact H || discriminate).
  reflexivity.
Qed.

Lemma solve_of_abort n eq e :
  tokenizeExpression n eq 0 = Abort e -> solve eq = Abort e.
Proof.
  intros H. unfold solve. erewrite fuel_irrelevant by (exact H || discriminate).
  reflexivity.
Qed.

(** ** Symbolic runs *)

Ltac cursor :=
  cbn [skipSpaces advance peek append Ascii.eqb Bool.eqb bind].

Ltac literal_step :=
  rewrite ?tokenizeNumbers_space;
  rewrite tokenizeNumbers_literal by (assumption || reflexivity);
  cursor.

Ltac term_of_literal :=
  rewrite tokenizeMulDiv_S; literal_step;
  rewrite tokenizeMulDiv_loop_done by reflexivity; cursor.

Lemma precedence_run a b c :
  signedLiteral a = true -> signedLiteral b = true -> signedLiteral c = true ->
  tokenizeExpression 9 (a ++ " + " ++ b ++ " * " ++ c ++ "") 0 =
  Ok (to_float (dadd (to_double (literalValue a))
                     (to_double (fmul (literalValue b) (literalValue c)))),
      "", 0).
Proof.
  intros Ha Hb Hc.
  rewrite tokenizeExpression_S. term_of_literal.
  rewrite tokenizeExpression_loop_add by reflexivity. cursor.
  rewrite tokenizeMulDiv_S. literal_step.
  rewrite tokenizeMulDiv_loop_mul by reflexivity. cursor.
  literal_step.
  rewrite tokenizeMulDiv_loop_done by reflexivity. cursor.
  rewrite tokenizeExpression_loop_done by reflexivity. reflexivity.
Qed.

Lemma associativity_run a b c :
  signedLiteral a = true -> signedLiteral b = true -> signedLiteral c = true ->
  tokenizeExpression 9 (a ++ " - " ++ b ++ " - " ++ c ++ "") 0 =
  Ok (to_float (dsub (dsub (to_double (literalValue a)) (to_double (literalValue b)))
                     (to_double (literalValue c))),
      "", 0).
Proof.
  intros Ha Hb Hc.
  rewrite tokenizeExpression_S. term_of_literal.
  rewrite tokenizeExpression_loop_sub by reflexivity. cursor. term_of_literal.
  rewrite tokenizeExpression_loop_sub by reflexivity. cursor. term_of_literal.
  rewrite tokenizeExpression_loop_done by reflexivity. reflexivity.
Qed.

Lemma division_run a :
  signedLiteral a = true ->
  tokenizeExpression 9 (a ++ "/0") 0 = Abort DivisionByZero.
Proof.
  intros Ha.
  rewrite tokenizeExpression_S, tokenizeMulDiv_S. literal_step.
  rewrite tokenizeMulDiv_loop_div by reflexivity. cursor.
  reflexivity.
Qed.

Lemma unbalanced_run a b :
  signedLiteral a = true -> signedLiteral b = true ->
  tokenizeExpression 12 ("(" ++ a ++ "+" ++ b ++ "") 0 = Abort UnbalancedParentheses.
Proof.
  intros Ha Hb.
  rewrite tokenizeExpression_S, tokenizeMulDiv_S.
  rewrite tokenizeNumbers_paren by reflexivity.
  change (advance (snd (afterSign ("(" ++ a ++ "+" ++ b ++ ""))))
    with (a ++ "+" ++ b ++ "").
  rewrite tokenizeExpression_S. term_of_literal.
  rewrite tokenizeExpression_loop_add by reflexivity. cursor. term_of_literal.
  rewrite tokenizeExpression_loop_done by reflexivity. reflexivity.
Qed.

Lemma unmatched_close_run a b t :
  signedLiteral a = true -> signedLiteral b = true ->
  tokenizeExpression 9 (a ++ "+" ++ b ++ ")" ++ t) 0 =
  Ok (to_float (dadd (to_double (literalValue a)) (to_double (literalValue b))),
      ")" ++ t, 0).
Proof.
  intros Ha Hb.
  rewrite tokenizeExpression_S. term_of_literal.
  rewrite tokenizeExpression_loop_add by reflexivity. cursor. term_of_literal.
  rewrite tokenizeExpression_loop_done by reflexivity. reflexivity.
Qed.

Lemma allDigits_literal d : allDigits d = true -> d <> "" -> numericLiteral d = true.
Proof.
  intros Hd Hne. destruct d as [|c d]; [congruence|]. unfold numericLiteral.
  clear Hne. generalize false. revert Hd. generalize (String c d). clear c d.
  induction s as [|c d IH]; intros Hd f; [reflexivity|].
  simpl in *. apply andb_true_iff in Hd as [Hc Hd]. rewrite Hc. apply IH; assumption.
Qed.

Lemma single_literal_run a :
  signedLiteral a = true ->
  tokenizeExpression 3 (a ++ "") 0 = Ok (to_float (to_double (literalValue a)), "", 0).
Proof.
  intros Ha. rewrite tokenizeExpression_S. term_of_literal.
  rewrite tokenizeExpression_loop_done by reflexivity. reflexivity.
Qed.

Lemma double_minus_run d :
  numericLiteral d = true ->
  tokenizeExpression 3 ("--" ++ d ++ "") 0 =
  Ok (to_float (to_double (literalValue d)), "", 0).
Proof.
  intros Hd. rewrite tokenizeExpression_S, tokenizeMulDiv_S.
  rewrite tokenizeNumbers_number by reflexivity.
  change (afterSign ("--" ++ d ++ "")) with (true, String "-" d ++ "").
  cbn [fst snd]. rewrite makeFloat_literal by (exact Hd || reflexivity).
  rewrite samePointer_app by discriminate.
  cbn [negateIf bind]. rewrite literalValue_negate_twice by assumption.
  rewrite tokenizeMulDiv_loop_done by reflexivity. cursor.
  rewrite tokenizeExpression_loop_done by reflexivity. reflexivity.
Qed.

(** ** The program's own table

    The entries of [kExpressions] whose expected answer in [kAnswers]
    is a whole number are reproduced exactly. *)

Example kExpressions_exact :
  solve "-((6+4))* -(2+2) - -1" = Ok (of_int 41) /\
  solve "-25 + 4 * -(32 - 45 / 5 - -6)" = Ok (of_int (-141)) /\
  solve "-( -(-( -(2+3*4)+2 )-1)+ 0)" = Ok (of_int 11).
Proof. repeat split. Qed.

(** * The claims *)

(** C1 (precedence).  For all numeric literals [a], [b], [c], signed or
    not, [solve] applied to the text [a + b * c] returns [a + (b * c)]:
    the product is formed first, in [float], and added to [a] in the
    [double] accumulator of [tokenizeExpression].  The other grouping,
    [(a + b) * c], is a different value, as [1 + 2 * 3] shows. *)
Theorem precedence_mul_over_add a b c :
  signedLiteral a = true -> signedLiteral b = true -> signedLiteral c = true ->
  solve (a ++ " + " ++ b ++ " * " ++ c) =
    Ok (to_float (dadd (to_double (literalValue a))
                       (to_double (fmul (literalValue b) (literalValue c)))))
  /\ solve ("1" ++ " + " ++ "2" ++ " * " ++ "3") <>
       Ok (fmul (to_float (dadd (to_double (literalValue "1"))
                                (to_double (literalValue "2"))))
                (literalValue "3")).
Proof.
  intros Ha Hb Hc. split.
  - apply solve_of_run with (n := 9%nat) (rest := "").
    rewrite <- (app_empty_r c) at 1. apply precedence_run; assumption.
  - vm_compute. discriminate.
Qed.

Lemma precedence_mul_over_add_witness :
  solve "1 + 2 * 3" = Ok (of_int 7) /\
  solve "1.5 + -2 * .25" = Ok (of_int 1).
Proof.
  split.
  - destruct (precedence_mul_over_add "1" "2" "3" eq_refl eq_refl eq_refl) as [H _].
    exact H.
  - destruct (precedence_mul_over_add "1.5" "-2" ".25" eq_refl eq_refl eq_refl)
      as [H _].
    exact H.
Defined.

(** C2 (left associativity).  For all numeric literals [a], [b], [c],
    [solve] applied to [a - b - c] returns [(a - b) - c].  Both operator
    levels are left-to-right folds: one turn of either loop fetches the
    right-hand operand from the next-tighter level and goes on with the
    accumulator already combined with it. *)
Theorem left_associative_fold a b c :
  signedLiteral a = true -> signedLiteral b = true -> signedLiteral c = true ->
  solve (a ++ " - " ++ b ++ " - " ++ c) =
    Ok (to_float (dsub (dsub (to_double (literalValue a))
                             (to_double (literalValue b)))
                       (to_double (literalValue c))))
  /\ (forall n first eq cp second eq' cp',
        tokenizeMulDiv n (advance (skipSpaces eq)) cp = Ok (second, eq', cp') ->
        (peek (skipSpaces eq) = "+"%char ->
           tokenizeExpression_loop (S n) first eq cp =
           tokenizeExpression_loop n (dadd first (to_double second)) eq' cp') /\
        (peek (skipSpaces eq) = "-"%char ->
           tokenizeExpression_loop (S n) first eq cp =
           tokenizeExpression_loop n (dsub first (to_double second)) eq' cp'))
  /\ (forall n first eq cp second eq' cp',
        tokenizeNumbers n (advance (skipSpaces eq)) cp = Ok (second, eq', cp') ->
        (peek (skipSpaces eq) = "*"%char ->
           tokenizeMulDiv_loop (S n) first eq cp =
           tokenizeMulDiv_loop n (fmul first second) eq' cp') /\
        (peek (skipSpaces eq) = "/"%char -> isZero second = false ->
           tokenizeMulDiv_loop (S n) first eq cp =
           tokenizeMulDiv_loop n (fdiv first second) eq' cp')).
Proof.
  intros Ha Hb Hc. split; [|split].
  - apply solve_of_run with (n := 9%nat) (rest := "").
    rewrite <- (app_empty_r c) at 1. apply associativity_run; assumption.
  - intros n first eq cp second eq' cp' Hsecond. split; intros Hop.
    + rewrite tokenizeExpression_loop_add by (rewrite Hop; reflexivity).
      rewrite Hsecond. reflexivity.
    + rewrite tokenizeExpression_loop_sub by (rewrite Hop; reflexivity).
      rewrite Hsecond. reflexivity.
  - intros n first eq cp second eq' cp' Hsecond. split; intros Hop.
    + rewrite tokenizeMulDiv_loop_mul by (rewrite Hop; reflexivity).
      rewrite Hsecond. reflexivity.
    + intros Hnz. rewrite tokenizeMulDiv_loop_div by (rewrite Hop; reflexivity).
      rewrite Hsecond. cbn [bind]. rewrite Hnz. reflexivity.
Qed.

Lemma left_associative_fold_witness :
  solve "7 - 2 - 1" = Ok (of_int 4) /\
  tokenizeExpression_loop 4 (to_double (of_int 7)) "- 2 - 1" 0 =
    tokenizeExpression_loop 3 (dsub (to_double (of_int 7)) (to_double (of_int 2)))
      "- 1" 0.
Proof.
  destruct (left_associative_fold "7" "2" "1" eq_refl eq_refl eq_refl)
    as (H & Hfold & _).
  split; [exact H|].
  exact (proj2 (Hfold 3%nat (to_double (of_int 7)) "- 2 - 1" 0 (of_int 2) "- 1" 0
                  eq_refl) eq_refl).
Defined.

(** C3 (division by zero).  When the loop of [tokenizeMulDiv] has read a
    [/] and the right operand has been evaluated, the evaluation aborts
    with DivisionByZero if that operand is a zero (of either sign), and
    otherwise goes on with the quotient: the division itself never
    fails on a non-zero operand.  In particular [1/0] aborts with
    DivisionByZero, and so does every literal divided by [0]; the abort
    comes out of any depth, and for an operand that is only computed
    to be zero, or is the negative zero. *)
Theorem division_by_zero_aborts :
  (forall n first eq cp second eq' cp',
     peek (skipSpaces eq) = "/"%char ->
     tokenizeNumbers n (advance (skipSpaces eq)) cp = Ok (second, eq', cp') ->
     tokenizeMulDiv_loop (S n) first eq cp =
       if isZero second then Abort DivisionByZero
       else tokenizeMulDiv_loop n (fdiv first second) eq' cp') /\
  solve "1/0" = Abort DivisionByZero /\
  solve "2*(3+1/(2-2))" = Abort DivisionByZero /\
  solve "1/-0" = Abort DivisionByZero /\
  (forall a, signedLiteral a = true -> solve (a ++ "/0") = Abort DivisionByZero).
Proof.
  split; [|split; [|split; [|split]]].
  - intros n first eq cp second eq' cp' Hop Hsecond.
    rewrite tokenizeMulDiv_loop_div by (rewrite Hop; reflexivity).
    rewrite Hsecond. reflexivity.
  - reflexivity.
  - reflexivity.
  - reflexivity.
  - intros a Ha. apply solve_of_abort with (n := 9%nat).
    apply division_run; assumption.
Qed.

Lemma division_by_zero_aborts_witness :
  tokenizeMulDiv_loop 2 (of_int 1) "/0" 0 = Abort DivisionByZero /\
  tokenizeMulDiv_loop 3 (of_int 1) "/4" 0 =
    tokenizeMulDiv_loop 2 (fdiv (of_int 1) (of_int 4)) "" 0 /\
  solve "8/0" = Abort DivisionByZero.
Proof.
  destruct division_by_zero_aborts as (Hstep & _ & _ & _ & Hlit).
  split; [|split].
  - exact (Hstep 1%nat (of_int 1) "/0" 0 (of_int 0) "" 0 eq_refl eq_refl).
  - exact (Hstep 2%nat (of_int 1) "/4" 0 (of_int 4) "" 0 eq_refl eq_refl).
  - exact (Hlit "8" eq_refl).
Defined.

(** C4, as the code has it.  Once [tokenizeNumbers] has consumed an
    opening parenthesis and the sub-expression has been evaluated, the
    next character must be the closing parenthesis: if it is, it is
    consumed and the (possibly negated) value returned; if it is not,
    the evaluation aborts with UnbalancedParentheses.  So [(1+2], and
    every [(a+b] that ends there, aborts with UnbalancedParentheses. *)
Theorem closing_parenthesis_required :
  (forall n eq cp calculated eq' cp',
     peek (snd (afterSign eq)) = "("%char ->
     tokenizeExpression n (advance (snd (afterSign eq))) (wrap32 (cp + 1)) =
       Ok (calculated, eq', cp') ->
     tokenizeNumbers (S n) eq cp =
       if Ascii.eqb (peek eq') ")" then
         Ok (negateIf (fst (afterSign eq)) calculated, advance eq', wrap32 (cp' - 1))
       else Abort UnbalancedParentheses) /\
  solve "(1+2" = Abort UnbalancedParentheses /\
  (forall a b, signedLiteral a = true -> signedLiteral b = true ->
     solve ("(" ++ a ++ "+" ++ b) = Abort UnbalancedParentheses).
Proof.
  split; [|split].
  - intros n eq cp calculated eq' cp' Hopen Hsub.
    rewrite tokenizeNumbers_paren by (rewrite Hopen; reflexivity).
    rewrite Hsub. reflexivity.
  - reflexivity.
  - intros a b Ha Hb. apply solve_of_abort with (n := 12%nat).
    rewrite <- (app_empty_r b). apply unbalanced_run; assumption.
Qed.

Lemma closing_parenthesis_required_witness :
  tokenizeNumbers 9 "(1+2" 0 = Abort UnbalancedParentheses /\
  tokenizeNumbers 9 "-(1+2)*3" 0 = Ok (of_int (-3), "*3", 0) /\
  solve "(4+5" = Abort UnbalancedParentheses.
Proof.
  destruct closing_parenthesis_required as (Hstep & _ & Hlit).
  split; [|split].
  - exact (Hstep 8%nat "(1+2" 0 (of_int 3) "" 1 eq_refl eq_refl).
  - exact (Hstep 8%nat "-(1+2)*3" 0 (of_int 3) ")*3" 1 eq_refl eq_refl).
  - exact (Hlit "4" "5" eq_refl eq_refl).
Defined.

(** C4, as stated, fails: an opening parenthesis that is never closed
    does not always end in UnbalancedParentheses.  The sub-expression
    can abort first, with its own error, and a parenthesis in the part
    of the input that [solve] never reads is not seen at all. *)
Lemma unmatched_open_other_outcomes :
  solve "(" = Abort MalformedNumber /\
  solve "(1/0" = Abort DivisionByZero /\
  solve "1(" = Ok (of_int 1).
Proof. repeat split. Qed.

(** C5, as stated, fails: [1+2)] is evaluated to 3. *)
Lemma unmatched_close_accepted : solve "1+2)" = Ok (of_int 3).
Proof. reflexivity. Qed.

(** C5, as the code has it.  A closing parenthesis met where none was
    opened stops [tokenizeExpression] and is left unconsumed; the
    counter is still zero, so [solve] returns the value of what was
    read before it: [a+b)] followed by anything evaluates to [a + b]. *)
Theorem unmatched_close_ignored a b t :
  signedLiteral a = true -> signedLiteral b = true ->
  solve (a ++ "+" ++ b ++ ")" ++ t) =
    Ok (to_float (dadd (to_double (literalValue a)) (to_double (literalValue b)))).
Proof.
  intros Ha Hb. eapply solve_of_run. apply unmatched_close_run; assumption.
Qed.

Lemma unmatched_close_ignored_witness :
  solve "1+2)))" = Ok (of_int 3).
Proof. exact (unmatched_close_ignored "1" "2" "))" eq_refl eq_refl). Defined.

(** C6 (trailing input).  Whenever the top-level [tokenizeExpression]
    returns a value, [solve] returns that value, whatever is left after
    the cursor: the driver never looks at the rest of the input. *)
Theorem trailing_input_ignored n eq v rest cp :
  tokenizeExpression n eq 0 = Ok (v, rest, cp) -> solve eq = Ok v.
Proof.
  intros H.
  destruct (parenDepth_preserved n) as (_ & _ & _ & He & _).
  assert (cp = 0) by (eapply He; [unfold inInt; lia | exact H]). subst cp.
  eapply solve_of_run; exact H.
Qed.

Lemma trailing_input_ignored_witness :
  tokenizeExpression 9 "1+2 garbage" 0 = Ok (of_int 3, "garbage", 0) /\
  solve "1+2 garbage" = Ok (of_int 3).
Proof.
  split; [reflexivity|].
  exact (trailing_input_ignored 9 "1+2 garbage" (of_int 3) "garbage" 0 eq_refl).
Defined.

Lemma makeFloat_loop_first eq b a d :
  (isDigit (peek eq) || Ascii.eqb (peek eq) ".") = true ->
  (String.length (snd (makeFloat_loop eq b a d false)) < String.length eq)%nat.
Proof.
  destruct eq as [|c r]; simpl; [discriminate|]. intros H.
  destruct (isDigit c).
  - eapply Nat.le_lt_trans; [apply length_makeFloat_loop | lia].
  - simpl in H. rewrite H.
    eapply Nat.le_lt_trans; [apply length_makeFloat_loop | lia].
Qed.

(** The scan consumes nothing exactly when it starts at a character
    that is not a digit, a decimal point or a minus sign. *)
Lemma scanLength_zero eq :
  scanLength eq = 0%nat <-> startsNumber (peek eq) = false.
Proof.
  unfold scanLength, startsNumber, makeFloat.
  destruct (Ascii.eqb (peek eq) "-") eqn:Hminus.
  - rewrite orb_true_r.
    pose proof (length_makeFloat_loop (advance eq) (of_int 0) (of_int 0) 1 false) as Hl.
    assert (String.length (advance eq) < String.length eq)%nat as Ha.
    { apply length_advance_lt. eapply peek_eqb_not_NUL; eauto. discriminate. }
    destruct (makeFloat_loop _ _ _ _ _) as [[[? ?] ?] e]; simpl in *.
    split; [intros; exfalso; lia|discriminate].
  - rewrite orb_false_r.
    destruct (isDigit (peek eq) || Ascii.eqb (peek eq) ".") eqn:Hstart.
    + pose proof (makeFloat_loop_first eq (of_int 0) (of_int 0) 1 Hstart) as Hl.
      destruct (makeFloat_loop _ _ _ _ _) as [[[? ?] ?] e]; simpl in *.
      split; [intros; exfalso; lia|discriminate].
    + rewrite makeFloat_loop_stop.
      * simpl. split; [reflexivity|lia].
      * unfold stopsScan. apply orb_false_iff in Hstart as [-> ->]. reflexivity.
Qed.

(** C7, as the code has it.  Where [tokenizeNumbers] scans a number
    (the character after spaces and an optional minus is not an opening
    parenthesis), it aborts with MalformedNumber exactly when the scan
    consumed no character at all, that is when it starts at a character
    that is neither a digit, nor a decimal point, nor a minus sign; and
    whenever it returns a value the scan has consumed at least one
    character. *)
Theorem malformed_iff_nothing_consumed n eq cp :
  peek (snd (afterSign eq)) <> "("%char ->
  (tokenizeNumbers (S n) eq cp = Abort MalformedNumber <->
     scanLength (snd (afterSign eq)) = 0%nat) /\
  (scanLength (snd (afterSign eq)) = 0%nat <->
     startsNumber (peek (snd (afterSign eq))) = false) /\
  (forall v eq' cp',
     tokenizeNumbers (S n) eq cp = Ok (v, eq', cp') ->
     eq' = snd (makeFloat (snd (afterSign eq))) /\
     (0 < scanLength (snd (afterSign eq)))%nat).
Proof.
  intros Hopen. apply Ascii.eqb_neq in Hopen.
  rewrite tokenizeNumbers_number by assumption.
  split; [|split; [apply scanLength_zero|]]; unfold scanLength, samePointer;
    pose proof (length_makeFloat (snd (afterSign eq))) as Hle;
    destruct (makeFloat (snd (afterSign eq))) as [toNumber eptr]; simpl in *;
    destruct (Nat.eqb_spec (String.length eptr) (String.length (snd (afterSign eq))))
      as [Hsame|Hdiff].
  - split; [lia|reflexivity].
  - split; [discriminate|lia].
  - discriminate.
  - intros v eq' cp' H. inv H. split; [reflexivity|lia].
Qed.

Lemma malformed_iff_nothing_consumed_witness :
  peek (snd (afterSign "+1")) <> "("%char /\
  tokenizeNumbers 1 "+1" 0 = Abort MalformedNumber /\
  (0 < scanLength "7")%nat.
Proof.
  assert (H1 : peek (snd (afterSign "+1")) <> "("%char) by discriminate.
  assert (H2 : peek (snd (afterSign "7")) <> "("%char) by discriminate.
  destruct (malformed_iff_nothing_consumed 0 "+1" 0 H1) as (Hiff & _ & _).
  destruct (malformed_iff_nothing_consumed 0 "7" 0 H2) as (_ & _ & Hok).
  split; [exact H1|split].
  - apply Hiff. reflexivity.
  - exact (proj2 (Hok (of_int 7) "" 0 eq_refl)).
Defined.

(** C7, as stated, fails: the scan of [.] consumes the decimal point
    and no digit, and the scan of [-] after a unary minus consumes the
    minus sign and no digit; both return zero instead of aborting. *)
Lemma value_without_digit :
  tokenizeNumbers 1 "." 0 = Ok (of_int 0, "", 0) /\
  countDigits "." = 0%nat /\
  solve "." = Ok (of_int 0) /\
  solve "--" = Ok (of_int 0) /\
  countDigits "--" = 0%nat.
Proof. repeat split. Qed.

Lemma makeFloat_loop_second_point a rest : forall b af d f,
  literalFrom f a = true -> f || hasPoint a = true ->
  makeFloat_loop (a ++ String "." rest) b af d f =
  (fst (makeFloat_loop a b af d f), String "." rest).
Proof.
  induction a as [|c a IH]; intros b af d f Hlit Hpt.
  - simpl in Hpt. rewrite orb_false_r in Hpt. subst f. reflexivity.
  - simpl in Hlit, Hpt. cbn [append makeFloat_loop].
    destruct (isDigit c) eqn:Hc.
    + rewrite (isDigit_point_false c Hc) in Hpt. simpl in Hpt.
      destruct f; apply IH; assumption.
    + apply andb_true_iff in Hlit as [Hlit Hlit'].
      apply andb_true_iff in Hlit as [Hdot Hf].
      rewrite Hdot. apply negb_true_iff in Hf. subst f.
      apply IH; [assumption|reflexivity].
Qed.

Lemma hasPoint_signed a :
  signedLiteral a = true -> hasPoint a = true ->
  numericLiteral a = true /\ hasPoint a = true \/
  exists a', a = String "-" a' /\ numericLiteral a' = true /\ hasPoint a' = true.
Proof.
  intros Ha Hpt. destruct (signedLiteral_cases a Ha) as [Hu|(a' & -> & Hu)]; [auto|].
  right. exists a'. simpl in Hpt. auto.
Qed.

Lemma makeFloat_second_point a rest :
  signedLiteral a = true -> hasPoint a = true ->
  makeFloat (a ++ String "." rest) = (literalValue a, String "." rest).
Proof.
  intros Ha Hpt.
  destruct (hasPoint_signed a Ha Hpt) as [[Hu Hp]|(a' & -> & Hu & Hp)];
    unfold literalValue, makeFloat.
  - destruct (literal_peek a (String "." rest) Hu) as [Hpk _]. rewrite Hpk.
    first_char a.
    rewrite makeFloat_loop_second_point
      by (apply literalFrom_of_literal || assumption; assumption).
    destruct (makeFloat_loop a (of_int 0) (of_int 0) 1 false) as [[[b af] d] e].
    reflexivity.
  - cbn [append peek advance]. rewrite Ascii.eqb_refl.
    rewrite makeFloat_loop_second_point
      by (apply literalFrom_of_literal || assumption; assumption).
    destruct (makeFloat_loop a' (of_int 0) (of_int 0) 1 false) as [[[b af] d] e].
    reflexivity.
Qed.

(** C8 (second decimal point).  A decimal point met while the scan is
    already in the fractional part ends the scan at once: the loop
    returns its accumulators unchanged with the cursor on that point.
    So on a literal that has a decimal point, followed by another
    decimal point and anything, [makeFloat] returns the value of the
    literal and leaves the cursor at the second point, and
    [tokenizeNumbers] returns that value without any error; on
    [12.3.5] the value is that of [12.3] and the cursor is at [.5]. *)
Theorem second_decimal_point_stops_scan :
  (forall eq beforeDecimal afterDecimal divisor,
     makeFloat_loop (String "." eq) beforeDecimal afterDecimal divisor true =
     (beforeDecimal, afterDecimal, divisor, String "." eq)) /\
  (forall a rest, signedLiteral a = true -> hasPoint a = true ->
     makeFloat (a ++ String "." rest) = (literalValue a, String "." rest)) /\
  (forall n a rest cp, numericLiteral a = true -> hasPoint a = true ->
     tokenizeNumbers (S n) (a ++ String "." rest) cp =
     Ok (literalValue a, String "." rest, cp)) /\
  makeFloat "12.3.5" = (literalValue "12.3", ".5").
Proof.
  split; [|split; [|split]].
  - reflexivity.
  - apply makeFloat_second_point.
  - intros n a rest cp Ha Hpt.
    rewrite tokenizeNumbers_number; rewrite afterSign_unsigned by assumption;
      cbn [fst snd].
    + rewrite makeFloat_second_point; [|unfold signedLiteral; first_char a|];
        try assumption.
      rewrite samePointer_app by (apply literal_nonempty; assumption). reflexivity.
    + apply peek_literal_paren; assumption.
  - reflexivity.
Qed.

Lemma second_decimal_point_stops_scan_witness :
  makeFloat "0.25.75" = (literalValue "0.25", ".75") /\
  makeFloat "-0.25.75" = (literalValue "-0.25", ".75") /\
  tokenizeNumbers 1 "0.25.75" 0 = Ok (literalValue "0.25", ".75", 0).
Proof.
  destruct second_decimal_point_stops_scan as (_ & Hscan & Hfactor & _).
  split; [|split].
  - exact (Hscan "0.25" "75" eq_refl eq_refl).
  - exact (Hscan "-0.25" "75" eq_refl eq_refl).
  - exact (Hfactor 0%nat "0.25" "75" 0 eq_refl eq_refl).
Defined.

(** C9 (ParenDepth).  Every call of [tokenizeNumbers], [tokenizeMulDiv]
    or [tokenizeExpression] that returns a value returns the counter it
    was given; [tokenizeNumbers] adds one on an opening parenthesis and
    takes one off after the closing one.  Hence, when the top-level
    [tokenizeExpression] returns a value, the counter is zero, the
    final check of [solve] passes and [solve] returns that value. *)
Theorem parenDepth_restored n cp :
  inInt cp ->
  (forall eq v eq' cp',
     tokenizeNumbers n eq cp = Ok (v, eq', cp') -> cp' = cp) /\
  (forall eq v eq' cp',
     tokenizeMulDiv n eq cp = Ok (v, eq', cp') -> cp' = cp) /\
  (forall eq v eq' cp',
     tokenizeExpression n eq cp = Ok (v, eq', cp') -> cp' = cp) /\
  (forall eq v eq' cp',
     tokenizeExpression (fuelFor eq) eq 0 = Ok (v, eq', cp') ->
     Z.eqb cp' 0 = true /\ solve eq = Ok v).
Proof.
  intros Hin.
  destruct (parenDepth_preserved n) as (Hn & Hm & _ & He & _).
  repeat split; try (intros; eauto; fail).
  - destruct (parenDepth_preserved (fuelFor eq)) as (_ & _ & _ & He' & _).
    apply He' in H; [subst; reflexivity | unfold inInt; lia].
  - unfold solve. rewrite H. cbn [bind].
    destruct (parenDepth_preserved (fuelFor eq)) as (_ & _ & _ & He' & _).
    apply He' in H; [subst; reflexivity | unfold inInt; lia].
Qed.

Lemma parenDepth_restored_witness :
  inInt 0 /\
  exists v eq', tokenizeExpression 30 "((1+2)*(3))" 0 = Ok (v, eq', 0).
Proof.
  split; [unfold inInt; lia|].
  destruct (parenDepth_restored 30 0) as (_ & _ & He & _); [unfold inInt; lia|].
  destruct (tokenizeExpression 30 "((1+2)*(3))" 0) as [[[v eq'] cp']| |] eqn:E;
    [|vm_compute in E; discriminate E..].
  exists v, eq'. rewrite (He _ _ _ _ E). reflexivity.
Defined.

(** C10 (two leading minus signs).  For every non-empty string of
    digits [d], [solve] applied to [--d] succeeds and returns what it
    returns on [d] itself, the value of the literal [d]:
    [tokenizeNumbers] takes the first minus as its sign flag, the
    scanner takes the second as the sign of the number and returns the
    negated value with the whole text consumed, and the two negations
    cancel.  The value returned has its sign bit clear. *)
Theorem double_minus_cancels d :
  allDigits d = true -> d <> "" ->
  solve ("--" ++ d) = Ok (to_float (to_double (literalValue d))) /\
  solve d = Ok (to_float (to_double (literalValue d))) /\
  nonNegative (to_float (to_double (literalValue d))) = true /\
  afterSign ("--" ++ d) = (true, "-" ++ d) /\
  makeFloat ("-" ++ d) = (fmul (literalValue d) (of_int (-1)), "").
Proof.
  intros Hd Hne. pose proof (allDigits_literal d Hd Hne) as Hlit.
  split; [|split; [|split; [|split]]].
  - apply solve_of_run with (n := 3%nat) (rest := "").
    rewrite <- (app_empty_r d) at 1. apply double_minus_run; assumption.
  - apply solve_of_run with (n := 3%nat) (rest := "").
    rewrite <- (app_empty_r d) at 1. apply single_literal_run.
    unfold signedLiteral. first_char d. assumption.
  - do 2 apply convert_nonNegative. apply literalValue_nonNegative; assumption.
  - reflexivity.
  - rewrite literalValue_negate by assumption.
    rewrite <- (app_empty_r ("-" ++ d)) at 1.
    apply makeFloat_literal; [exact Hlit|reflexivity].
Qed.

Lemma double_minus_cancels_witness :
  solve "--5" = Ok (of_int 5) /\ solve "5" = Ok (of_int 5).
Proof.
  destruct (double_minus_cancels "5" eq_refl) as (H1 & H2 & _); [discriminate|].
  split; [exact H1|exact H2].
Defined.

(** * Further properties *)

(** ** What the scanner consumes, and where the cursor goes *)

Lemma suffixOf_refl eq : suffixOf eq eq.
Proof. exists "". reflexivity. Qed.

Lemma append_assoc (a b c : string) : (a ++ b) ++ c = a ++ b ++ c.
Proof. induction a; simpl; congruence. Qed.

Lemma suffixOf_trans a b c : suffixOf a b -> suffixOf b c -> suffixOf a c.
Proof.
  intros [p ->] [q ->]. exists (q ++ p). symmetry. apply append_assoc.
Qed.

Lemma suffixOf_advance eq : suffixOf (advance eq) eq.
Proof. destruct eq as [|c r]; [apply suffixOf_refl|]. exists (String c ""). reflexivity. Qed.

Lemma suffixOf_skipSpaces eq : suffixOf (skipSpaces eq) eq.
Proof.
  induction eq as [|c r IH]; [apply suffixOf_refl|]. simpl.
  destruct (Ascii.eqb c " "); [|apply suffixOf_refl].
  eapply suffixOf_trans; [exact IH|]. exists (String c ""). reflexivity.
Qed.

Lemma suffixOf_length a b : suffixOf a b -> (String.length a <= String.length b)%nat.
Proof. intros [p ->]. rewrite length_app. lia. Qed.

(** The scanning loop splits its input into what it consumed, made of
    digits and of at most one decimal point, and the rest, which does
    not start with a digit. *)
Lemma makeFloat_loop_split eq : forall b a d f,
  exists pre,
    eq = pre ++ snd (makeFloat_loop eq b a d f) /\
    literalFrom f pre = true /\
    isDigit (peek (snd (makeFloat_loop eq b a d f))) = false.
Proof.
  induction eq as [|c r IH]; intros b a d f.
  - exists "". repeat split.
  - cbn [makeFloat_loop]. destruct (isDigit c) eqn:Hc.
    + destruct f.
      * destruct (IH b (fadd (fmul a (of_int 10)) (of_int (toDigit c))) (wrap32 (d * 10)) true)
          as (pre & Heq & Hlit & Hend).
        exists (String c pre). cbn [append literalFrom]. rewrite Hc.
        repeat split; try assumption. f_equal. exact Heq.
      * destruct (IH (fadd (fmul b (of_int 10)) (of_int (toDigit c))) a d false)
          as (pre & Heq & Hlit & Hend).
        exists (String c pre). cbn [append literalFrom]. rewrite Hc.
        repeat split; try assumption. f_equal. exact Heq.
    + destruct (Ascii.eqb c ".") eqn:Hdot.
      * destruct f.
        -- exists "". cbn [snd peek]. repeat split. exact Hc.
        -- destruct (IH b a d true) as (pre & Heq & Hlit & Hend).
           exists (String c pre). cbn [append literalFrom]. rewrite Hc, Hdot.
           repeat split; try assumption. f_equal. exact Heq.
      * exists "". cbn [snd peek]. repeat split. exact Hc.
Qed.

Lemma makeFloat_split eq :
  exists pre,
    eq = pre ++ snd (makeFloat eq) /\
    scannedText pre = true /\
    isDigit (peek (snd (makeFloat eq))) = false.
Proof.
  unfold makeFloat, scannedText.
  destruct (Ascii.eqb (peek eq) "-") eqn:Hm.
  - destruct eq as [|c r]; [discriminate|]. apply Ascii.eqb_eq in Hm. simpl in Hm. subst c.
    cbn [advance].
    destruct (makeFloat_loop_split r (of_int 0) (of_int 0) 1 false) as (pre & Heq & Hlit & Hend).
    destruct (makeFloat_loop r _ _ _ _) as [[[b a] d] e]. cbn [snd] in *.
    exists (String "-" pre). cbn [append peek advance]. rewrite Ascii.eqb_refl.
    repeat split; try assumption. f_equal. exact Heq.
  - destruct (makeFloat_loop_split eq (of_int 0) (of_int 0) 1 false) as (pre & Heq & Hlit & Hend).
    destruct (makeFloat_loop eq _ _ _ _) as [[[b a] d] e]. cbn [snd] in *.
    exists pre. repeat split; try assumption.
    destruct pre as [|c p]; [reflexivity|].
    rewrite Heq in Hm. cbn [append peek] in *. rewrite Hm. exact Hlit.
Qed.

Lemma suffixOf_makeFloat eq : suffixOf (snd (makeFloat eq)) eq.
Proof. destruct (makeFloat_split eq) as (pre & H & _). exists pre. exact H. Qed.

Lemma suffixOf_afterSign eq : suffixOf (snd (afterSign eq)) eq.
Proof.
  unfold afterSign. destruct (Ascii.eqb _ "-"); cbn [snd].
  - eapply suffixOf_trans; [apply suffixOf_advance|apply suffixOf_skipSpaces].
  - apply suffixOf_skipSpaces.
Qed.

Lemma grammar_suffix n :
  (forall eq cp v eq' cp', tokenizeNumbers n eq cp = Ok (v, eq', cp') -> suffixOf eq' eq) /\
  (forall eq cp v eq' cp', tokenizeMulDiv n eq cp = Ok (v, eq', cp') -> suffixOf eq' eq) /\
  (forall first eq cp v eq' cp',
     tokenizeMulDiv_loop n first eq cp = Ok (v, eq', cp') -> suffixOf eq' eq) /\
  (forall eq cp v eq' cp', tokenizeExpression n eq cp = Ok (v, eq', cp') -> suffixOf eq' eq) /\
  (forall first eq cp v eq' cp',
     tokenizeExpression_loop n first eq cp = Ok (v, eq', cp') -> suffixOf eq' eq).
Proof.
  induction n as [|n (IHn & IHm & IHml & IHe & IHel)].
  { repeat split; intros; discriminate. }
  repeat split.
  - intros eq cp v eq' cp' H.
    pose proof (suffixOf_afterSign eq) as Hs.
    destruct (Ascii.eqb (peek (snd (afterSign eq))) "(") eqn:Hp.
    + rewrite tokenizeNumbers_paren in H by assumption.
      break_bind H. destruct (Ascii.eqb (peek _) ")"); inv H.
      apply IHe in E.
      eapply suffixOf_trans; [apply suffixOf_advance|].
      eapply suffixOf_trans; [exact E|].
      eapply suffixOf_trans; [apply suffixOf_advance|exact Hs].
    + rewrite tokenizeNumbers_number in H by assumption.
      pose proof (suffixOf_makeFloat (snd (afterSign eq))) as Hm.
      destruct (makeFloat (snd (afterSign eq))) as [toNumber eptr]. cbn [snd] in Hm.
      destruct (samePointer eptr _); inv H.
      eapply suffixOf_trans; eassumption.
  - intros eq cp v eq' cp' H. rewrite tokenizeMulDiv_S in H.
    break_bind H. apply IHn in E. apply IHml in H.
    eapply suffixOf_trans; eassumption.
  - intros first eq cp v eq' cp' H. simpl in H.
    pose proof (suffixOf_skipSpaces eq) as Hs.
    destruct (negb (Ascii.eqb (peek (skipSpaces eq)) "*") &&
              negb (Ascii.eqb (peek (skipSpaces eq)) "/")).
    + inv H. exact Hs.
    + break_bind H. apply IHn in E.
      assert (suffixOf eq' s) as Hl.
      { destruct (negb (Ascii.eqb (peek (skipSpaces eq)) "/")); [eapply IHml; eauto|].
        destruct (fneq _ _); [eapply IHml; eauto|discriminate]. }
      eapply suffixOf_trans; [exact Hl|].
      eapply suffixOf_trans; [exact E|].
      eapply suffixOf_trans; [apply suffixOf_advance|exact Hs].
  - intros eq cp v eq' cp' H. rewrite tokenizeExpression_S in H.
    break_bind H. apply IHm in E. apply IHel in H.
    eapply suffixOf_trans; eassumption.
  - intros first eq cp v eq' cp' H. simpl in H.
    pose proof (suffixOf_skipSpaces eq) as Hs.
    destruct (negb (Ascii.eqb (peek (skipSpaces eq)) "+") &&
              negb (Ascii.eqb (peek (skipSpaces eq)) "-")).
    + inv H. exact Hs.
    + break_bind H. apply IHm in E.
      assert (suffixOf eq' s) as Hl
        by (destruct (Ascii.eqb (peek (skipSpaces eq)) "+"); eapply IHel; eauto).
      eapply suffixOf_trans; [exact Hl|].
      eapply suffixOf_trans; [exact E|].
      eapply suffixOf_trans; [apply suffixOf_advance|exact Hs].
Qed.


(** ** The parenthesis counter has no influence *)

Lemma withCounter_bind {V W : Type} cp (r r' : result (parsed V))
    (k k' : parsed V -> result (parsed W)) :
  (forall v eq c c', r = Ok (v, eq, c) -> r' = Ok (v, eq, c') ->
     k' (v, eq, c') = withCounter cp (k (v, eq, c))) ->
  (exists c, r' = withCounter c r) ->
  bind r' k' = withCounter cp (bind r k).
Proof.
  intros Hk [c ->]. destruct r as [[[v eq] c0]| |]; simpl; try reflexivity.
  eapply Hk; reflexivity.
Qed.

Lemma counter_irrelevant n :
  (forall eq cp cp2, inInt cp2 ->
     tokenizeNumbers n eq cp2 = withCounter cp2 (tokenizeNumbers n eq cp)) /\
  (forall eq cp cp2, inInt cp2 ->
     tokenizeMulDiv n eq cp2 = withCounter cp2 (tokenizeMulDiv n eq cp)) /\
  (forall first eq cp cp2, inInt cp2 ->
     tokenizeMulDiv_loop n first eq cp2 =
     withCounter cp2 (tokenizeMulDiv_loop n first eq cp)) /\
  (forall eq cp cp2, inInt cp2 ->
     tokenizeExpression n eq cp2 = withCounter cp2 (tokenizeExpression n eq cp)) /\
  (forall first eq cp cp2, inInt cp2 ->
     tokenizeExpression_loop n first eq cp2 =
     withCounter cp2 (tokenizeExpression_loop n first eq cp)).
Proof.
  induction n as [|n (IHn & IHm & IHml & IHe & IHel)].
  { repeat split; intros; reflexivity. }
  repeat split.
  - intros eq cp cp2 Hin.
    destruct (Ascii.eqb (peek (snd (afterSign eq))) "(") eqn:Hp.
    + rewrite !tokenizeNumbers_paren by assumption.
      apply withCounter_bind.
      * intros v e c c' H1 H2.
        rewrite (IHe _ (wrap32 (cp + 1)) (wrap32 (cp2 + 1)) (wrap32_inInt _)), H1 in H2.
        simpl in H2. inv H2.
        destruct (Ascii.eqb (peek e) ")"); [|reflexivity]. simpl.
        rewrite wrap32_succ_pred by assumption. reflexivity.
      * eexists. apply IHe. apply wrap32_inInt.
    + rewrite !tokenizeNumbers_number by assumption.
      destruct (makeFloat _) as [toNumber eptr].
      destruct (samePointer _ _); reflexivity.
  - intros eq cp cp2 Hin. rewrite !tokenizeMulDiv_S.
    apply withCounter_bind; [|eexists; apply IHn; exact Hin].
    intros v e c c' H1 H2.
    rewrite (IHn _ cp cp2 Hin), H1 in H2. simpl in H2. inv H2.
    apply IHml; assumption.
  - intros first eq cp cp2 Hin. simpl.
    destruct (negb _ && negb _); [reflexivity|].
    apply withCounter_bind; [|eexists; apply IHn; exact Hin].
    intros v e c c' H1 H2.
    rewrite (IHn _ cp cp2 Hin), H1 in H2. simpl in H2. inv H2.
    destruct (negb (Ascii.eqb (peek (skipSpaces eq)) "/")); [apply IHml; assumption|].
    destruct (fneq _ _); [apply IHml; assumption|reflexivity].
  - intros eq cp cp2 Hin. rewrite !tokenizeExpression_S.
    apply withCounter_bind; [|eexists; apply IHm; exact Hin].
    intros v e c c' H1 H2.
    rewrite (IHm _ cp cp2 Hin), H1 in H2. simpl in H2. inv H2.
    apply IHel; assumption.
  - intros first eq cp cp2 Hin. simpl.
    destruct (negb _ && negb _); [reflexivity|].
    apply withCounter_bind; [|eexists; apply IHm; exact Hin].
    intros v e c c' H1 H2.
    rewrite (IHm _ cp cp2 Hin), H1 in H2. simpl in H2. inv H2.
    destruct (Ascii.eqb (peek (skipSpaces eq)) "+"); apply IHel; assumption.
Qed.

(** ** Text after an expression *)

Lemma neutral_not_digit t : neutral t = true -> isDigit (peek t) = false.
Proof. unfold neutral. intros H. apply andb_true_iff in H as [H _]. apply negb_true_iff in H. exact H. Qed.

Lemma neutral_not_reserved t c :
  neutral t = true -> In c reserved -> Ascii.eqb (peek t) c = false.
Proof.
  unfold neutral. intros H Hc. apply andb_true_iff in H as [_ H].
  apply negb_true_iff in H.
  destruct (Ascii.eqb (peek t) c) eqn:E; [|reflexivity].
  rewrite <- H. symmetry. apply existsb_exists. exists c. split; assumption.
Qed.

Lemma peek_app_reserved s t c :
  neutral t = true -> In c reserved ->
  Ascii.eqb (peek (s ++ t)) c = Ascii.eqb (peek s) c.
Proof.
  intros Ht Hc. destruct s as [|a s]; [|reflexivity]. cbn [append peek].
  rewrite (neutral_not_reserved t c Ht Hc).
  symmetry. apply Ascii.eqb_neq. intros E. subst c.
  unfold reserved, operators in Hc. simpl in Hc.
  repeat (destruct Hc as [Hc|Hc]; [discriminate Hc|]). exact Hc.
Qed.

Ltac reserved_char :=
  unfold reserved, operators; simpl; tauto.

Lemma peek_app_nonempty s t c :
  Ascii.eqb (peek s) c = true -> c <> NUL ->
  peek (s ++ t) = peek s /\ advance (s ++ t) = advance s ++ t.
Proof.
  intros H Hc. destruct s as [|a s]; [|split; reflexivity].
  apply Ascii.eqb_eq in H. simpl in H. congruence.
Qed.

Lemma skipSpaces_app s t :
  neutral t = true -> skipSpaces (s ++ t) = skipSpaces s ++ t.
Proof.
  intros Ht. induction s as [|a s IH]; cbn [append skipSpaces].
  - destruct t as [|c t]; [reflexivity|]. cbn [skipSpaces].
    assert (Ascii.eqb (peek (String c t)) " " = false) as H
      by (apply neutral_not_reserved; [assumption|reserved_char]).
    cbn [peek] in H. rewrite H. reflexivity.
  - destruct (Ascii.eqb a " "); [exact IH|reflexivity].
Qed.

Lemma stopsScan_neutral t : neutral t = true -> stopsScan t = true.
Proof.
  intros Ht. unfold stopsScan. rewrite (neutral_not_digit t Ht).
  rewrite (neutral_not_reserved t "." Ht) by reserved_char. reflexivity.
Qed.

Lemma makeFloat_loop_app_neutral s t : forall b a d f,
  neutral t = true ->
  makeFloat_loop (s ++ t) b a d f =
  (fst (makeFloat_loop s b a d f), snd (makeFloat_loop s b a d f) ++ t).
Proof.
  induction s as [|c s IH]; intros b a d f Ht.
  - cbn [append]. rewrite makeFloat_loop_stop by (apply stopsScan_neutral; assumption).
    reflexivity.
  - cbn [append makeFloat_loop]. destruct (isDigit c).
    + destruct f; apply IH; assumption.
    + destruct (Ascii.eqb c "."); [destruct f|]; try reflexivity.
      apply IH; assumption.
Qed.

Lemma makeFloat_app s t :
  neutral t = true ->
  makeFloat (s ++ t) = (fst (makeFloat s), snd (makeFloat s) ++ t).
Proof.
  intros Ht. unfold makeFloat.
  rewrite (peek_app_reserved s t "-" Ht) by reserved_char.
  destruct (Ascii.eqb (peek s) "-") eqn:Hm.
  - destruct (peek_app_nonempty s t "-" Hm) as [_ ->]; [discriminate|].
    rewrite makeFloat_loop_app_neutral by assumption.
    destruct (makeFloat_loop (advance s) _ _ _ _) as [[[b a] d] e]. reflexivity.
  - rewrite makeFloat_loop_app_neutral by assumption.
    destruct (makeFloat_loop s _ _ _ _) as [[[b a] d] e]. reflexivity.
Qed.

Lemma afterSign_app s t :
  neutral t = true ->
  afterSign (s ++ t) = (fst (afterSign s), snd (afterSign s) ++ t).
Proof.
  intros Ht. unfold afterSign. rewrite skipSpaces_app by assumption.
  rewrite (peek_app_reserved _ t "-" Ht) by reserved_char.
  destruct (Ascii.eqb (peek (skipSpaces s)) "-") eqn:Hm; [|reflexivity].
  destruct (peek_app_nonempty _ t "-" Hm) as [_ ->]; [discriminate|]. reflexivity.
Qed.

Lemma samePointer_app_both p q t : samePointer (p ++ t) (q ++ t) = samePointer p q.
Proof.
  unfold samePointer. rewrite !length_app.
  destruct (Nat.eqb_spec (String.length p) (String.length q)) as [E|E];
    [apply Nat.eqb_eq|apply Nat.eqb_neq]; lia.
Qed.

Lemma text_after_expression n t :
  neutral t = true ->
  (forall eq cp v eq' cp', tokenizeNumbers n eq cp = Ok (v, eq', cp') ->
     tokenizeNumbers n (eq ++ t) cp = Ok (v, eq' ++ t, cp')) /\
  (forall eq cp v eq' cp', tokenizeMulDiv n eq cp = Ok (v, eq', cp') ->
     tokenizeMulDiv n (eq ++ t) cp = Ok (v, eq' ++ t, cp')) /\
  (forall first eq cp v eq' cp',
     tokenizeMulDiv_loop n first eq cp = Ok (v, eq', cp') ->
     tokenizeMulDiv_loop n first (eq ++ t) cp = Ok (v, eq' ++ t, cp')) /\
  (forall eq cp v eq' cp', tokenizeExpression n eq cp = Ok (v, eq', cp') ->
     tokenizeExpression n (eq ++ t) cp = Ok (v, eq' ++ t, cp')) /\
  (forall first eq cp v eq' cp',
     tokenizeExpression_loop n first eq cp = Ok (v, eq', cp') ->
     tokenizeExpression_loop n first (eq ++ t) cp = Ok (v, eq' ++ t, cp')).
Proof.
  intros Ht.
  induction n as [|n (IHn & IHm & IHml & IHe & IHel)].
  { repeat split; intros; discriminate. }
  repeat split.
  - intros eq cp v eq' cp' H.
    destruct (Ascii.eqb (peek (snd (afterSign eq))) "(") eqn:Hp.
    + rewrite tokenizeNumbers_paren in H by assumption.
      rewrite tokenizeNumbers_paren; rewrite afterSign_app by assumption; cbn [fst snd];
        [|rewrite peek_app_reserved by (assumption || reserved_char); exact Hp].
      destruct (peek_app_nonempty _ t "(" Hp) as [_ ->]; [discriminate|].
      break_bind H. rewrite (IHe _ _ _ _ _ E). cbn [bind].
      destruct (Ascii.eqb (peek s) ")") eqn:Hc; inv H.
      destruct (peek_app_nonempty _ t ")" Hc) as [-> ->]; [discriminate|].
      rewrite Hc. reflexivity.
    + rewrite tokenizeNumbers_number in H by assumption.
      rewrite tokenizeNumbers_number; rewrite afterSign_app by assumption; cbn [fst snd];
        [|rewrite peek_app_reserved by (assumption || reserved_char); exact Hp].
      rewrite makeFloat_app by assumption.
      destruct (makeFloat (snd (afterSign eq))) as [toNumber eptr]. cbn [fst snd].
      rewrite samePointer_app_both.
      destruct (samePointer eptr _); inv H. reflexivity.
  - intros eq cp v eq' cp' H. rewrite tokenizeMulDiv_S in H |- *.
    break_bind H. rewrite (IHn _ _ _ _ _ E). cbn [bind]. apply IHml; assumption.
  - intros first eq cp v eq' cp' H.
    destruct (Ascii.eqb (peek (skipSpaces eq)) "*") eqn:Hmul;
      [|destruct (Ascii.eqb (peek (skipSpaces eq)) "/") eqn:Hdiv].
    + rewrite tokenizeMulDiv_loop_mul in H by assumption.
      rewrite tokenizeMulDiv_loop_mul; rewrite skipSpaces_app by assumption;
        [|rewrite peek_app_reserved by (assumption || reserved_char); exact Hmul].
      destruct (peek_app_nonempty _ t "*" Hmul) as [_ ->]; [discriminate|].
      break_bind H. rewrite (IHn _ _ _ _ _ E). cbn [bind]. apply IHml; assumption.
    + rewrite tokenizeMulDiv_loop_div in H by assumption.
      rewrite tokenizeMulDiv_loop_div; rewrite skipSpaces_app by assumption;
        [|rewrite peek_app_reserved by (assumption || reserved_char); exact Hdiv].
      destruct (peek_app_nonempty _ t "/" Hdiv) as [_ ->]; [discriminate|].
      break_bind H. rewrite (IHn _ _ _ _ _ E). cbn [bind].
      destruct (isZero _); [discriminate|]. apply IHml; assumption.
    + rewrite tokenizeMulDiv_loop_done in H by assumption. inv H.
      rewrite tokenizeMulDiv_loop_done; rewrite skipSpaces_app by assumption;
        try (rewrite peek_app_reserved by (assumption || reserved_char); assumption).
      reflexivity.
  - intros eq cp v eq' cp' H. rewrite tokenizeExpression_S in H |- *.
    break_bind H. rewrite (IHm _ _ _ _ _ E). cbn [bind]. apply IHel; assumption.
  - intros first eq cp v eq' cp' H.
    destruct (Ascii.eqb (peek (skipSpaces eq)) "+") eqn:Hadd;
      [|destruct (Ascii.eqb (peek (skipSpaces eq)) "-") eqn:Hsub].
    + rewrite tokenizeExpression_loop_add in H by assumption.
      rewrite tokenizeExpression_loop_add; rewrite skipSpaces_app by assumption;
        [|rewrite peek_app_reserved by (assumption || reserved_char); exact Hadd].
      destruct (peek_app_nonempty _ t "+" Hadd) as [_ ->]; [discriminate|].
      break_bind H. rewrite (IHm _ _ _ _ _ E). cbn [bind]. apply IHel; assumption.
    + rewrite tokenizeExpression_loop_sub in H by assumption.
      rewrite tokenizeExpression_loop_sub; rewrite skipSpaces_app by assumption;
        [|rewrite peek_app_reserved by (assumption || reserved_char); exact Hsub].
      destruct (peek_app_nonempty _ t "-" Hsub) as [_ ->]; [discriminate|].
      break_bind H. rewrite (IHm _ _ _ _ _ E). cbn [bind]. apply IHel; assumption.
    + rewrite tokenizeExpression_loop_done in H by assumption. inv H.
      rewrite tokenizeExpression_loop_done; rewrite skipSpaces_app by assumption;
        try (rewrite peek_app_reserved by (assumption || reserved_char); assumption).
      reflexivity.
Qed.

(** ** Values of the binary32 format *)

Lemma valid32_finite s m e :
  valid32 (S754_finite s m e) = true <->
  fexp32 (Zpos (digits2_pos m) + e) = e /\ e <= 104.
Proof.
  unfold valid32, valid_binary, bounded, canonical_mantissa. fold (fexp32 (Zpos (digits2_pos m) + e)).
  change (emax32 - prec32) with 104.
  rewrite andb_true_iff, Z.eqb_eq, Z.leb_le. reflexivity.
Qed.

(** Rounding, from any location, of a mantissa that is not shorter
    than the format allows yields a value of the format. *)
Lemma binary_round_aux_valid s M E l :
  0 <= M -> E <= fexp32 (Zdigits2 M + E) ->
  valid32 (binary_round_aux prec32 emax32 s M E l) = true.
Proof.
  intros HM0 Hpre. unfold binary_round_aux.
  assert (exists r n, shr_fexp prec32 emax32 M E l = (r, E + n) /\ 0 <= n /\
            n = fexp32 (Zdigits2 M + E) - E /\ shr_m r = Z.shiftr M n) as (r & n & H1 & Hn & Hndef & Hr).
  { destruct (shr_fexp_cases M E l HM0) as [[Hn H1]|[Hn (r & H1 & Hr)]].
    - exists (shr_record_of_loc M l), 0. rewrite Z.add_0_r. repeat split; try lia; try assumption.
      destruct l as [|[| |]]; rewrite Z.shiftr_0_r; reflexivity.
    - exists r, (fexp32 (Zdigits2 M + E) - E). repeat split; try lia; assumption. }
  rewrite H1; clear H1.
  assert (0 <= shr_m r) as Hr0 by (rewrite Hr; apply Z.shiftr_nonneg; lia).
  pose proof (round_cases r) as Hround. cbv zeta in Hround.
  remember (round_nearest_even (shr_m r) (loc_of_shr_record r)) as m1 eqn:Hm1def.
  clear Hm1def.
  assert (0 <= m1) as Hm1 by lia.
  (* the rounded mantissa is still not too short *)
  assert (0 < m1 -> E + n <= fexp32 (Zdigits2 m1 + (E + n))) as Hkeep.
  { intros Hpos. destruct (Z.eq_dec (shr_m r) 0) as [Hz|Hnz].
    - assert (m1 = 1) as -> by lia. change (Zdigits2 1) with 1.
      destruct (Z.eq_dec n 0) as [Hn0|Hn0].
      + rewrite Hn0, Z.shiftr_0_r, Hz in Hr. rewrite <- Hr in *.
        change (Zdigits2 0) with 0 in *. rewrite fexp32_eq in *. lia.
      + assert (Zdigits2 M <= n) by (apply Zdigits2_shiftr_0; lia).
        rewrite fexp32_eq in *. lia.
    - assert (Zdigits2 (shr_m r) = Zdigits2 M - n) as Hd.
      { destruct (Z.eq_dec n 0) as [Hn0|Hn0].
        - rewrite Hr, Hn0, Z.shiftr_0_r. lia.
        - rewrite Hr. apply Zdigits2_shiftr; lia. }
      pose proof (Zdigits2_succ (shr_m r) Hr0).
      rewrite fexp32_eq in *.
      destruct Hround as [Hc|Hc]; rewrite Hc in *; lia. }
  destruct (shr_fexp_cases m1 (E + n) loc_Exact Hm1)
    as [[Hn1 H2]|[Hn1 (r2 & H2 & Hr2)]]; rewrite H2; clear H2.
  - cbn [shr_record_of_loc shr_m].
    destruct m1 as [|p|p] eqn:Hp; try reflexivity.
    destruct (Z.leb_spec (E + n) (emax32 - prec32)) as [Hle|Hgt]; [|reflexivity].
    change (emax32 - prec32) with 104 in Hle.
    apply valid32_finite. change (Zpos (digits2_pos p)) with (Zdigits2 (Zpos p)).
    cbv zeta in Hn1. specialize (Hkeep ltac:(lia)). lia.
  - destruct (shr_m r2) as [|p|p] eqn:Hp; try reflexivity.
    remember (fexp32 (Zdigits2 m1 + (E + n)) - (E + n)) as n1 eqn:Hn1def.
    destruct (Z.leb_spec (E + n + n1) (emax32 - prec32)) as [Hle|Hgt]; [|reflexivity].
    change (emax32 - prec32) with 104 in Hle.
    apply valid32_finite. change (Zpos (digits2_pos p)) with (Zdigits2 (Zpos p)).
    assert (0 < Z.shiftr m1 n1) as Hpos by lia.
    rewrite Hr2. split; [|lia].
    rewrite Zdigits2_shiftr by lia.
    rewrite !fexp32_eq in *. lia.
Qed.

Lemma digits2_pos_iter_xO m d :
  Zpos (digits2_pos (Pos.iter xO m d)) = Zpos (digits2_pos m) + Zpos d.
Proof.
  induction d as [|d IH] using Pos.peano_ind.
  - simpl. lia.
  - rewrite Pos.iter_succ. cbn [digits2_pos]. lia.
Qed.

Lemma binary_round_valid s m e : valid32 (binary_round prec32 emax32 s m e) = true.
Proof.
  unfold binary_round, shl_align. fold (fexp32 (Zpos (digits2_pos m) + e)).
  destruct (fexp32 (Zpos (digits2_pos m) + e) - e) as [|d|d] eqn:Hd;
    apply binary_round_aux_valid; try lia; cbn [Zdigits2];
    rewrite ?digits2_pos_iter_xO; rewrite !fexp32_eq in *; lia.
Qed.

Lemma binary_normalize_valid z e sz :
  valid32 (binary_normalize prec32 emax32 z e sz) = true.
Proof. destruct z; [reflexivity|apply binary_round_valid..]. Qed.

Lemma of_int_valid z : valid32 (of_int z) = true.
Proof. apply binary_normalize_valid. Qed.

Lemma to_float_valid x : valid32 (to_float x) = true.
Proof. destruct x; try reflexivity. apply binary_round_valid. Qed.

Lemma fadd_valid x y :
  valid32 x = true -> valid32 y = true -> valid32 (fadd x y) = true.
Proof.
  intros Hx Hy. unfold fadd, SFadd.
  destruct x as [sx|sx| |sx mx ex]; destruct y as [sy|sy| |sy my ey];
    try reflexivity; try assumption;
    try (destruct sx, sy; reflexivity || assumption).
  apply binary_normalize_valid.
Qed.

Lemma Zdigits2_mul a b :
  0 < a -> 0 < b -> Zdigits2 a + Zdigits2 b - 1 <= Zdigits2 (a * b).
Proof.
  intros Ha Hb. rewrite !Zdigits2_log2 by lia.
  pose proof (Z.log2_mul_below a b Ha Hb). lia.
Qed.

Lemma fmul_valid x y :
  valid32 x = true -> valid32 y = true -> valid32 (fmul x y) = true.
Proof.
  intros Hx Hy. unfold fmul, SFmul.
  destruct x as [sx|sx| |sx mx ex]; destruct y as [sy|sy| |sy my ey];
    try reflexivity.
  apply valid32_finite in Hx, Hy. destruct Hx as [Hx _], Hy as [Hy _].
  apply binary_round_aux_valid; [lia|].
  pose proof (Zdigits2_mul (Zpos mx) (Zpos my) ltac:(lia) ltac:(lia)) as Hd.
  change (Zpos mx * Zpos my) with (Zpos (mx * my)) in Hd.
  cbn [Zdigits2] in Hd |- *. rewrite !fexp32_eq in *. lia.
Qed.

Lemma Zdigits2_nonneg a : 0 <= a -> 0 <= Zdigits2 a.
Proof. destruct a; simpl; lia. Qed.

Lemma Zdigits2_div a b :
  0 < a -> 0 < b -> Zdigits2 a - Zdigits2 b <= Zdigits2 (a / b).
Proof.
  intros Ha Hb.
  assert (0 <= a / b) as Hq by (apply Z.div_pos; lia).
  pose proof (Zdigits2_nonneg _ Hq) as Hq0.
  rewrite (Zdigits2_log2 a), (Zdigits2_log2 b) by lia.
  destruct (Z.le_gt_cases (Z.log2 a) (Z.log2 b)) as [Hle|Hgt]; [lia|].
  assert (2 ^ (Z.log2 a - Z.log2 b - 1) <= a / b) as Hlow.
  { apply Z.div_le_lower_bound; [lia|].
    destruct (Z.log2_spec a Ha) as [Ha1 _]. destruct (Z.log2_spec b Hb) as [_ Hb2].
    assert (0 < 2 ^ (Z.log2 a - Z.log2 b - 1)) by (apply Z.pow_pos_nonneg; lia).
    replace (2 ^ Z.log2 a) with (2 ^ (Z.log2 a - Z.log2 b - 1) * 2 ^ Z.succ (Z.log2 b)) in Ha1.
    - nia.
    - rewrite <- Z.pow_add_r by (pose proof (Z.log2_nonneg b); lia). f_equal. lia. }
  assert (0 < a / b).
  { assert (0 < 2 ^ (Z.log2 a - Z.log2 b - 1)) by (apply Z.pow_pos_nonneg; lia). lia. }
  rewrite (Zdigits2_log2 (a / b)) by lia.
  assert (Z.log2 a - Z.log2 b - 1 <= Z.log2 (a / b)); [|lia].
  apply Z.log2_le_pow2; lia.
Qed.

Lemma fdiv_valid x y : valid32 (fdiv x y) = true.
Proof.
  unfold fdiv, SFdiv.
  destruct x as [sx|sx| |sx mx ex]; destruct y as [sy|sy| |sy my ey];
    try reflexivity.
  unfold SFdiv_core_binary. cbn [Zdigits2].
  fold (fexp32 (Zpos (digits2_pos mx) + ex - (Zpos (digits2_pos my) + ey))).
  set (e' := Z.min (fexp32 (Zpos (digits2_pos mx) + ex - (Zpos (digits2_pos my) + ey)))
                   (ex - ey)).
  assert (exists m', (match ex - ey - e' with
                      | Z0 => Zpos mx
                      | Zpos _ => Z.shiftl (Zpos mx) (ex - ey - e')
                      | Zneg _ => 0
                      end) = m' /\ 0 < m' /\
                     Zdigits2 m' = Zpos (digits2_pos mx) + (ex - ey - e')) as (m' & -> & Hm' & Hdm).
  { assert (0 <= ex - ey - e') as Hs by (unfold e'; lia).
    destruct (ex - ey - e') as [|p|p] eqn:Hp; [| |lia].
    - exists (Zpos mx). repeat split; simpl; lia.
    - exists (Z.shiftl (Zpos mx) (Zpos p)). split; [reflexivity|].
      assert (0 < Z.shiftl (Zpos mx) (Zpos p)).
      { rewrite Z.shiftl_mul_pow2 by lia.
        apply Z.mul_pos_pos; [lia|apply Z.pow_pos_nonneg; lia]. }
      split; [assumption|].
      rewrite Zdigits2_log2 by assumption.
      rewrite Z.log2_shiftl by lia.
      change (Zpos (digits2_pos mx)) with (Zdigits2 (Zpos mx)).
      rewrite Zdigits2_log2 by lia. lia. }
  pose proof (Z.div_eucl_eq m' (Zpos my) ltac:(lia)) as Heucl.
  pose proof (Zdigits2_div m' (Zpos my) Hm' ltac:(lia)) as Hdq.
  unfold Z.div in Hdq.
  assert (0 <= fst (Z.div_eucl m' (Zpos my))) as Hq0
    by (apply (Z.div_pos m' (Zpos my)); lia).
  destruct (Z.div_eucl m' (Zpos my)) as [q r]. cbn [fst] in *.
  apply binary_round_aux_valid; [assumption|].
  cbn [Zdigits2] in Hdq. rewrite Hdm in Hdq.
  unfold e' in *. rewrite !fexp32_eq in *. lia.
Qed.

(** ** float to double and back *)

Lemma iter_shr_1_exact d : forall m,
  iter_pos shr_1 d (Build_shr_record (Zpos (Pos.iter xO m d)) false false) =
  Build_shr_record (Zpos m) false false.
Proof.
  induction d as [d IH|d IH|]; intros m; cbn [Pos.iter iter_pos shr_1 orb].
  - rewrite IH, IH. reflexivity.
  - rewrite IH, IH. reflexivity.
  - reflexivity.
Qed.

Lemma fexp64_eq e : fexp prec64 emax64 e = Z.max (e - 53) (-1074).
Proof. reflexivity. Qed.

(** A canonical mantissa is left alone by rounding. *)
Lemma binary_round_aux_canonical_input prec emax s m e :
  fexp prec emax (Zpos (digits2_pos m) + e) = e -> e <= emax - prec ->
  binary_round_aux prec emax s (Zpos m) e loc_Exact = S754_finite s m e.
Proof.
  intros Hc Hle. unfold binary_round_aux, shr_fexp. cbn [Zdigits2].
  rewrite Hc, Z.sub_diag.
  cbn [shr shr_record_of_loc shr_m loc_of_shr_record round_nearest_even Zdigits2].
  rewrite Hc, Z.sub_diag. cbn [shr shr_m].
  apply Z.leb_le in Hle. rewrite Hle. reflexivity.
Qed.

(** A canonical mantissa padded with [d] zeros is brought back by
    rounding. *)
Lemma binary_round_aux_padded prec emax s m e d :
  fexp prec emax (Zpos (digits2_pos m) + e) = e -> e <= emax - prec ->
  binary_round_aux prec emax s (Zpos (Pos.iter xO m d)) (e - Zpos d) loc_Exact =
  S754_finite s m e.
Proof.
  intros Hc Hle. unfold binary_round_aux, shr_fexp. cbn [Zdigits2].
  rewrite digits2_pos_iter_xO.
  replace (Zpos (digits2_pos m) + Zpos d + (e - Zpos d)) with (Zpos (digits2_pos m) + e) by lia.
  rewrite Hc. replace (e - (e - Zpos d)) with (Zpos d) by lia.
  cbn [shr shr_record_of_loc]. rewrite iter_shr_1_exact.
  cbn [shr_m loc_of_shr_record round_nearest_even Zdigits2].
  replace (e - Zpos d + Zpos d) with e by lia.
  rewrite Hc, Z.sub_diag. cbn [shr shr_m].
  apply Z.leb_le in Hle. rewrite Hle. reflexivity.
Qed.

Lemma to_double_of_valid s m e :
  valid32 (S754_finite s m e) = true ->
  exists d, to_double (S754_finite s m e) =
            S754_finite s (Pos.iter xO m d) (e - Zpos d).
Proof.
  intros Hv. apply valid32_finite in Hv as [Hc Hle]. rewrite fexp32_eq in Hc.
  unfold to_double, convert, binary_round, shl_align.
  pose proof (fexp64_eq (Zpos (digits2_pos m) + e)) as H64.
  destruct (fexp prec64 emax64 (Zpos (digits2_pos m) + e) - e) as [|d|d] eqn:Hd;
    try lia.
  exists d.
  replace (fexp prec64 emax64 (Zpos (digits2_pos m) + e)) with (e - Zpos d) in * by lia.
  apply binary_round_aux_canonical_input.
  - rewrite digits2_pos_iter_xO, fexp64_eq. lia.
  - change (emax64 - prec64) with 971. lia.
Qed.

Lemma to_float_to_double x :
  valid32 x = true -> to_float (to_double x) = x.
Proof.
  intros Hv. destruct x as [s|s| |s m e]; try reflexivity.
  destruct (to_double_of_valid s m e Hv) as [d ->].
  apply valid32_finite in Hv as [Hc Hle].
  unfold to_float, convert, binary_round, shl_align.
  fold (fexp32 (Zpos (digits2_pos (Pos.iter xO m d)) + (e - Zpos d))).
  rewrite digits2_pos_iter_xO.
  replace (Zpos (digits2_pos m) + Zpos d + (e - Zpos d)) with (Zpos (digits2_pos m) + e) by lia.
  rewrite Hc. replace (e - (e - Zpos d)) with (Zpos d) by lia.
  apply binary_round_aux_padded; [exact Hc|exact Hle].
Qed.

(** ** Values returned by the evaluator *)

Lemma makeFloat_loop_valid eq : forall b a d f,
  valid32 b = true -> valid32 a = true ->
  let '(b', a', _, _) := makeFloat_loop eq b a d f in
  valid32 b' = true /\ valid32 a' = true.
Proof.
  induction eq as [|c r IH]; intros b a d f Hb Ha; cbn [makeFloat_loop].
  - split; assumption.
  - destruct (isDigit c).
    + destruct f; apply IH; try assumption;
        (apply fadd_valid; [apply fmul_valid; [assumption|apply of_int_valid]
                           |apply of_int_valid]).
    + destruct (Ascii.eqb c "."); [destruct f|]; try (split; assumption).
      apply IH; assumption.
Qed.

Lemma makeFloat_valid eq : valid32 (fst (makeFloat eq)) = true.
Proof.
  unfold makeFloat.
  destruct (if Ascii.eqb (peek eq) "-" then _ else _) as [sign eq1].
  pose proof (makeFloat_loop_valid eq1 (of_int 0) (of_int 0) 1 false eq_refl eq_refl) as H.
  destruct (makeFloat_loop eq1 _ _ _ _) as [[[b a] d] e]. destruct H as [Hb _].
  cbn [fst]. unfold makeFloat_value.
  apply fmul_valid; [apply of_int_valid|].
  apply fadd_valid; [assumption|apply fdiv_valid].
Qed.

Lemma negateIf_valid hn x : valid32 x = true -> valid32 (negateIf hn x) = true.
Proof.
  intros Hx. destruct hn; [|exact Hx]. apply fmul_valid; [exact Hx|apply of_int_valid].
Qed.

Lemma grammar_valid n :
  (forall eq cp v eq' cp', tokenizeNumbers n eq cp = Ok (v, eq', cp') -> valid32 v = true) /\
  (forall eq cp v eq' cp', tokenizeMulDiv n eq cp = Ok (v, eq', cp') -> valid32 v = true) /\
  (forall first eq cp v eq' cp', valid32 first = true ->
     tokenizeMulDiv_loop n first eq cp = Ok (v, eq', cp') -> valid32 v = true) /\
  (forall eq cp v eq' cp', tokenizeExpression n eq cp = Ok (v, eq', cp') -> valid32 v = true) /\
  (forall first eq cp v eq' cp',
     tokenizeExpression_loop n first eq cp = Ok (v, eq', cp') -> valid32 v = true).
Proof.
  induction n as [|n (IHn & IHm & IHml & IHe & IHel)].
  { repeat split; intros; discriminate. }
  repeat split.
  - intros eq cp v eq' cp' H.
    destruct (Ascii.eqb (peek (snd (afterSign eq))) "(") eqn:Hp.
    + rewrite tokenizeNumbers_paren in H by assumption.
      break_bind H. destruct (Ascii.eqb (peek _) ")"); inv H.
      apply negateIf_valid. eapply IHe; eassumption.
    + rewrite tokenizeNumbers_number in H by assumption.
      pose proof (makeFloat_valid (snd (afterSign eq))) as Hm.
      destruct (makeFloat (snd (afterSign eq))) as [toNumber eptr]. cbn [fst] in Hm.
      destruct (samePointer eptr _); inv H. apply negateIf_valid; assumption.
  - intros eq cp v eq' cp' H. rewrite tokenizeMulDiv_S in H.
    break_bind H. eapply IHml; [|exact H]. eapply IHn; eassumption.
  - intros first eq cp v eq' cp' Hf H. simpl in H.
    destruct (negb (Ascii.eqb (peek (skipSpaces eq)) "*") &&
              negb (Ascii.eqb (peek (skipSpaces eq)) "/")).
    + inv H. exact Hf.
    + break_bind H. apply IHn in E.
      destruct (negb (Ascii.eqb (peek (skipSpaces eq)) "/")).
      * eapply IHml; [|exact H]. apply fmul_valid; assumption.
      * destruct (fneq _ _); [|discriminate].
        eapply IHml; [|exact H]. apply fdiv_valid.
  - intros eq cp v eq' cp' H. rewrite tokenizeExpression_S in H.
    break_bind H. eapply IHel; exact H.
  - intros first eq cp v eq' cp' H. simpl in H.
    destruct (negb (Ascii.eqb (peek (skipSpaces eq)) "+") &&
              negb (Ascii.eqb (peek (skipSpaces eq)) "-")).
    + inv H. apply to_float_valid.
    + break_bind H.
      destruct (Ascii.eqb (peek (skipSpaces eq)) "+"); eapply IHel; exact H.
Qed.

(** ** Spaces, missing operands, groups *)

Lemma skipSpaces_spaces sp eq :
  allSpaces sp = true -> skipSpaces (sp ++ eq) = skipSpaces eq.
Proof.
  induction sp as [|c sp IH]; intros H; [reflexivity|].
  simpl in H. apply andb_true_iff in H as [Hc H].
  cbn [append skipSpaces]. rewrite Hc. apply IH; exact H.
Qed.

Lemma afterSign_spaces sp eq :
  allSpaces sp = true -> afterSign (sp ++ eq) = afterSign eq.
Proof. intros H. unfold afterSign. rewrite skipSpaces_spaces by assumption. reflexivity. Qed.

Lemma tokenizeNumbers_spaces n sp eq cp :
  allSpaces sp = true -> tokenizeNumbers n (sp ++ eq) cp = tokenizeNumbers n eq cp.
Proof.
  intros H. destruct n; [reflexivity|].
  destruct (Ascii.eqb (peek (snd (afterSign eq))) "(") eqn:Hp.
  - rewrite !tokenizeNumbers_paren; rewrite ?afterSign_spaces by assumption;
      (reflexivity || assumption).
  - rewrite !tokenizeNumbers_number; rewrite ?afterSign_spaces by assumption;
      (reflexivity || assumption).
Qed.

Lemma tokenizeExpression_spaces n sp eq cp :
  allSpaces sp = true -> tokenizeExpression n (sp ++ eq) cp = tokenizeExpression n eq cp.
Proof.
  intros H. destruct n; [reflexivity|]. rewrite !tokenizeExpression_S.
  destruct n; [reflexivity|]. rewrite !tokenizeMulDiv_S.
  rewrite tokenizeNumbers_spaces by assumption. reflexivity.
Qed.

Lemma tokenizeNumbers_missing n eq cp :
  Ascii.eqb (peek (snd (afterSign eq))) "(" = false ->
  startsNumber (peek (snd (afterSign eq))) = false ->
  tokenizeNumbers (S n) eq cp = Abort MalformedNumber.
Proof.
  intros Hp Hs. rewrite tokenizeNumbers_number by assumption.
  apply scanLength_zero in Hs. unfold scanLength in Hs.
  pose proof (length_makeFloat (snd (afterSign eq))) as Hle.
  destruct (makeFloat (snd (afterSign eq))) as [toNumber eptr]. cbn [snd] in *.
  unfold samePointer.
  replace (String.length eptr =? String.length (snd (afterSign eq)))%nat with true;
    [reflexivity|].
  symmetry. apply Nat.eqb_eq. lia.
Qed.

Lemma fuel_mono_numbers n m eq cp :
  (n <= m)%nat -> tokenizeNumbers n eq cp <> OutOfFuel ->
  tokenizeNumbers m eq cp = tokenizeNumbers n eq cp.
Proof.
  induction 1 as [|m Hle IH]; intros H; [reflexivity|].
  specialize (IH H).
  destruct (fuel_step m) as (Hn & _).
  rewrite Hn; congruence.
Qed.

(** A parenthesized expression that evaluates with nothing left is, for
    Factor, a number with that value, whatever follows the closing
    parenthesis and whatever the counter. *)
Lemma tokenizeNumbers_group n E v cp0 (hn : bool) rest cp :
  tokenizeExpression n E 0 = Ok (v, "", cp0) -> inInt cp ->
  tokenizeNumbers (S n) ((if hn then "-(" else "(") ++ E ++ ")" ++ rest) cp =
  Ok (negateIf hn v, rest, cp).
Proof.
  intros Hrun Hin.
  assert (tokenizeExpression n (E ++ ")" ++ rest) (wrap32 (cp + 1)) =
          Ok (v, ")" ++ rest, wrap32 (cp + 1))) as Hsub.
  { destruct (counter_irrelevant n) as (_ & _ & _ & Hc & _).
    pose proof (Hc E 0 (wrap32 (cp + 1)) (wrap32_inInt _)) as H. rewrite Hrun in H.
    destruct (text_after_expression n (")" ++ rest) eq_refl) as (_ & _ & _ & Ha & _).
    exact (Ha _ _ _ _ _ H). }
  rewrite tokenizeNumbers_paren by (destruct hn; reflexivity).
  replace (advance (snd (afterSign ((if hn then "-(" else "(") ++ E ++ ")" ++ rest))))
    with (E ++ ")" ++ rest) by (destruct hn; reflexivity).
  rewrite Hsub. cbn [bind peek append advance]. rewrite Ascii.eqb_refl.
  rewrite wrap32_succ_pred by assumption.
  destruct hn; reflexivity.
Qed.

Lemma solve_of_expression n eq v rest cp :
  tokenizeExpression n eq 0 = Ok (v, rest, cp) -> solve eq = Ok v.
Proof.
  intros H.
  destruct (parenDepth_preserved n) as (_ & _ & _ & He & _).
  assert (cp = 0) by (eapply He; [unfold inInt; lia | exact H]). subst cp.
  eapply solve_of_run; exact H.
Qed.


(** * Further theorems *)



(** X2 (what a scan consumes).  [makeFloat] never fails; it splits its
    input into the text it consumed and the [end] position.  The text
    consumed is an optional minus sign followed by digits with at most
    one decimal point, and the scan never stops in front of a digit. *)
Theorem makeFloat_stops_after_number eq :
  exists pre,
    eq = pre ++ snd (makeFloat eq) /\
    scannedText pre = true /\
    isDigit (peek (snd (makeFloat eq))) = false.
Proof. apply makeFloat_split. Qed.

(** X3 (the cursor moves forward).  When [tokenizeNumbers],
    [tokenizeMulDiv] or [tokenizeExpression] returns a value, the
    cursor it returns is a position further on in the same text: the
    input is a non-empty consumed part followed by what is left. *)
Theorem cursor_moves_forward n eq cp v eq' cp' :
  tokenizeNumbers n eq cp = Ok (v, eq', cp') \/
  tokenizeMulDiv n eq cp = Ok (v, eq', cp') \/
  tokenizeExpression n eq cp = Ok (v, eq', cp') ->
  exists pre, eq = pre ++ eq' /\ pre <> "".
Proof.
  intros H.
  destruct (grammar_suffix n) as (Sn & Sm & _ & Se & _).
  destruct (consumes n) as (Cn & Cm & _ & Ce & _).
  assert (suffixOf eq' eq /\ (String.length eq' < String.length eq)%nat) as [[pre ->] Hlt].
  { destruct H as [H|[H|H]]; split; eauto. }
  exists pre. split; [reflexivity|]. intros ->. simpl in Hlt. lia.
Qed.

Lemma cursor_moves_forward_witness :
  exists pre, "2*3+4 rest" = pre ++ "+4 rest" /\ pre <> "".
Proof.
  apply (cursor_moves_forward 5 "2*3+4 rest" 0 (of_int 6) "+4 rest" 0).
  right. left. reflexivity.
Defined.

(** X4 (termination).  Three levels of calls per character of input
    are enough: with the fuel [solve] gives it, [tokenizeExpression]
    never runs out, whatever the counter, and [solve] returns a value
    or an error.  Any other amount of fuel that does not run out gives
    the same outcome. *)
Theorem evaluation_terminates eq :
  solve eq <> OutOfFuel /\
  (forall cp, tokenizeExpression (fuelFor eq) eq cp <> OutOfFuel) /\
  (forall n cp, tokenizeExpression n eq cp <> OutOfFuel ->
     tokenizeExpression n eq cp = tokenizeExpression (fuelFor eq) eq cp).
Proof.
  split; [apply solve_total|split].
  - intros cp. apply tokenizeExpression_fuelFor.
  - intros n cp H. symmetry. apply (fuel_irrelevant n); [reflexivity|exact H].
Qed.

Lemma evaluation_terminates_witness :
  tokenizeExpression 9 "(1+2)*3" 0 = tokenizeExpression (fuelFor "(1+2)*3") "(1+2)*3" 0 /\
  tokenizeExpression 6 "(1+2)*3" 0 = OutOfFuel.
Proof.
  split; [|reflexivity].
  destruct (evaluation_terminates "(1+2)*3") as (_ & _ & H).
  apply H. discriminate.
Defined.

(** X5 (leading spaces).  Spaces in front of an operand are skipped:
    a run of spaces put before the input changes nothing for
    [tokenizeNumbers], [tokenizeMulDiv], [tokenizeExpression] or
    [solve]; the two loops skip spaces in front of an operator in the
    same way. *)
Theorem leading_spaces_skipped sp eq :
  allSpaces sp = true ->
  solve (sp ++ eq) = solve eq /\
  (forall n cp, tokenizeNumbers n (sp ++ eq) cp = tokenizeNumbers n eq cp) /\
  (forall n cp, tokenizeMulDiv n (sp ++ eq) cp = tokenizeMulDiv n eq cp) /\
  (forall n cp, tokenizeExpression n (sp ++ eq) cp = tokenizeExpression n eq cp) /\
  (forall n first cp,
     tokenizeMulDiv_loop n first (sp ++ eq) cp = tokenizeMulDiv_loop n first eq cp) /\
  (forall n first cp,
     tokenizeExpression_loop n first (sp ++ eq) cp =
     tokenizeExpression_loop n first eq cp).
Proof.
  intros Hsp. repeat split.
  - unfold solve. rewrite tokenizeExpression_spaces by assumption.
    rewrite (fuel_mono_expression (fuelFor eq) (fuelFor (sp ++ eq)));
      [reflexivity| |apply tokenizeExpression_fuelFor].
    unfold fuelFor. rewrite length_app. lia.
  - intros n cp. apply tokenizeNumbers_spaces; assumption.
  - intros n cp. destruct n; [reflexivity|]. rewrite !tokenizeMulDiv_S.
    rewrite tokenizeNumbers_spaces by assumption. reflexivity.
  - intros n cp. apply tokenizeExpression_spaces; assumption.
  - intros n first cp. destruct n; [reflexivity|]. simpl.
    rewrite skipSpaces_spaces by assumption. reflexivity.
  - intros n first cp. destruct n; [reflexivity|]. simpl.
    rewrite skipSpaces_spaces by assumption. reflexivity.
Qed.

Lemma leading_spaces_skipped_witness :
  solve "   6/5-4" = solve "6/5-4" /\
  tokenizeMulDiv_loop 3 (of_int 6) "  /3" 0 = tokenizeMulDiv_loop 3 (of_int 6) "/3" 0.
Proof.
  destruct (leading_spaces_skipped "   " "6/5-4" eq_refl) as (H & _).
  destruct (leading_spaces_skipped "  " "/3" eq_refl) as (_ & _ & _ & _ & Hl & _).
  split; [exact H|exact (Hl 3%nat (of_int 6) 0)].
Defined.

(** X6 (missing operand).  Where an operand is expected, after spaces
    and an optional minus sign, a character that is not a digit, a
    decimal point, a minus sign or an opening parenthesis makes
    [tokenizeNumbers] abort with MalformedNumber; at the start of the
    input this is the outcome of [solve].  It covers the empty input,
    an input of spaces only, a space after a unary minus, and any
    character the grammar does not know. *)
Theorem missing_operand_is_malformed eq :
  peek (snd (afterSign eq)) <> "("%char ->
  startsNumber (peek (snd (afterSign eq))) = false ->
  solve eq = Abort MalformedNumber /\
  (forall n cp, tokenizeNumbers (S n) eq cp = Abort MalformedNumber).
Proof.
  intros Hp Hs. apply Ascii.eqb_neq in Hp.
  assert (forall n cp, tokenizeNumbers (S n) eq cp = Abort MalformedNumber) as H
    by (intros; apply tokenizeNumbers_missing; assumption).
  split; [|exact H].
  apply solve_of_abort with (n := 3%nat).
  rewrite tokenizeExpression_S, tokenizeMulDiv_S, H. reflexivity.
Qed.

Lemma missing_operand_is_malformed_witness :
  solve "" = Abort MalformedNumber /\
  solve "   " = Abort MalformedNumber /\
  solve "- 5" = Abort MalformedNumber /\
  solve "x+1" = Abort MalformedNumber.
Proof.
  split; [|split; [|split]].
  - apply (missing_operand_is_malformed ""); [discriminate|reflexivity].
  - apply (missing_operand_is_malformed "   "); [discriminate|reflexivity].
  - apply (missing_operand_is_malformed "- 5"); [discriminate|reflexivity].
  - apply (missing_operand_is_malformed "x+1"); [discriminate|reflexivity].
Defined.

Lemma isOperator_cases c :
  isOperator c = true ->
  c = "+"%char \/ c = "-"%char \/ c = "/"%char \/ c = "*"%char.
Proof.
  unfold isOperator, operators. cbn [existsb]. intros H.
  repeat (apply orb_true_iff in H as [H|H]; [apply Ascii.eqb_eq in H; auto|]).
  discriminate H.
Qed.

(** X7 (operator without right operand).  After a literal and one of
    the four operators, a text that does not start an operand makes
    [solve] abort with MalformedNumber: there is no partial result. *)
Theorem dangling_operator_is_malformed a op rest :
  signedLiteral a = true -> isOperator op = true ->
  peek (snd (afterSign rest)) <> "("%char ->
  startsNumber (peek (snd (afterSign rest))) = false ->
  solve (a ++ String op rest) = Abort MalformedNumber.
Proof.
  intros Ha Hop Hp Hs. apply Ascii.eqb_neq in Hp.
  pose proof (fun n cp => tokenizeNumbers_missing n rest cp Hp Hs) as Hmiss.
  apply solve_of_abort with (n := 4%nat).
  rewrite tokenizeExpression_S, tokenizeMulDiv_S.
  destruct (isOperator_cases op Hop) as [ -> | [ -> | [ -> | -> ] ] ]; literal_step.
  - rewrite tokenizeMulDiv_loop_done by reflexivity. cursor.
    rewrite tokenizeExpression_loop_add by reflexivity. cursor.
    rewrite tokenizeMulDiv_S, Hmiss. reflexivity.
  - rewrite tokenizeMulDiv_loop_done by reflexivity. cursor.
    rewrite tokenizeExpression_loop_sub by reflexivity. cursor.
    rewrite tokenizeMulDiv_S, Hmiss. reflexivity.
  - rewrite tokenizeMulDiv_loop_div by reflexivity. cursor.
    rewrite Hmiss. reflexivity.
  - rewrite tokenizeMulDiv_loop_mul by reflexivity. cursor.
    rewrite Hmiss. reflexivity.
Qed.

Lemma dangling_operator_is_malformed_witness :
  solve "1+" = Abort MalformedNumber /\
  solve "2.5* )" = Abort MalformedNumber.
Proof.
  split.
  - apply (dangling_operator_is_malformed "1" "+" ""); try reflexivity. discriminate.
  - apply (dangling_operator_is_malformed "2.5" "*" " )"); try reflexivity. discriminate.
Defined.

(** X8 (the counter is only counted).  The parenthesis counter never
    decides anything: started from any two counters, a call of
    [tokenizeNumbers], [tokenizeMulDiv] or [tokenizeExpression] has the
    same outcome, value, cursor and error alike, and hands back the
    counter it was given. *)
Theorem counter_has_no_influence n eq cp cp2 :
  inInt cp2 ->
  tokenizeNumbers n eq cp2 = withCounter cp2 (tokenizeNumbers n eq cp) /\
  tokenizeMulDiv n eq cp2 = withCounter cp2 (tokenizeMulDiv n eq cp) /\
  tokenizeExpression n eq cp2 = withCounter cp2 (tokenizeExpression n eq cp).
Proof.
  intros Hin. destruct (counter_irrelevant n) as (Hn & Hm & _ & He & _).
  repeat split; [apply Hn|apply Hm|apply He]; exact Hin.
Qed.

Lemma counter_has_no_influence_witness :
  inInt 7 /\
  tokenizeExpression 12 "(1+2)*3 x" 7 = Ok (of_int 9, "x", 7) /\
  tokenizeExpression 12 "(1+2" 7 = Abort UnbalancedParentheses.
Proof.
  assert (inInt 7) as Hin by (unfold inInt; lia).
  split; [exact Hin|split].
  - destruct (counter_has_no_influence 12 "(1+2)*3 x" 0 7 Hin) as (_ & _ & H). exact H.
  - destruct (counter_has_no_influence 12 "(1+2" 0 7 Hin) as (_ & _ & H). exact H.
Defined.

(** X9 (text after an expression).  A text whose first character is
    neither a digit nor a space, a decimal point, an opening
    parenthesis or an operator, put after the input, changes no value:
    each level returns the same value with that text added to what
    was left.  So when the expression was read to its end, [solve]
    returns the same value with the text appended. *)
Theorem neutral_text_changes_nothing n t :
  neutral t = true ->
  (forall eq cp v eq' cp', tokenizeNumbers n eq cp = Ok (v, eq', cp') ->
     tokenizeNumbers n (eq ++ t) cp = Ok (v, eq' ++ t, cp')) /\
  (forall eq cp v eq' cp', tokenizeMulDiv n eq cp = Ok (v, eq', cp') ->
     tokenizeMulDiv n (eq ++ t) cp = Ok (v, eq' ++ t, cp')) /\
  (forall eq cp v eq' cp', tokenizeExpression n eq cp = Ok (v, eq', cp') ->
     tokenizeExpression n (eq ++ t) cp = Ok (v, eq' ++ t, cp')) /\
  (forall eq v cp, tokenizeExpression n eq 0 = Ok (v, "", cp) ->
     solve eq = Ok v /\ solve (eq ++ t) = Ok v).
Proof.
  intros Ht. destruct (text_after_expression n t Ht) as (Hn & Hm & _ & He & _).
  repeat split; try assumption.
  - eapply solve_of_expression; eassumption.
  - eapply solve_of_expression. apply He. eassumption.
Qed.

Lemma neutral_text_changes_nothing_witness :
  solve "2*(3+4)" = Ok (of_int 14) /\
  solve "2*(3+4)) and more" = Ok (of_int 14).
Proof.
  destruct (neutral_text_changes_nothing 12 ") and more" eq_refl) as (_ & _ & _ & H).
  exact (H "2*(3+4)" (of_int 14) 0 eq_refl).
Defined.

(** X10 (a group is an operand).  If an expression evaluates to [v]
    with nothing left, then for [tokenizeNumbers] the same expression
    between parentheses is an operand of value [v], and of value
    [v * -1] with a minus sign in front, whatever text follows the
    closing parenthesis; the cursor is left just after it. *)
Theorem parenthesized_group n E v cp0 rest cp :
  tokenizeExpression n E 0 = Ok (v, "", cp0) -> inInt cp ->
  tokenizeNumbers (S n) ("(" ++ E ++ ")" ++ rest) cp = Ok (v, rest, cp) /\
  tokenizeNumbers (S n) ("-(" ++ E ++ ")" ++ rest) cp =
    Ok (fmul v (of_int (-1)), rest, cp).
Proof.
  intros Hrun Hin. split.
  - exact (tokenizeNumbers_group n E v cp0 false rest cp Hrun Hin).
  - exact (tokenizeNumbers_group n E v cp0 true rest cp Hrun Hin).
Qed.

Lemma parenthesized_group_witness :
  tokenizeNumbers 10 "(6/5-4)*2" 3 = Ok (fst (makeFloat "-2.8"), "*2", 3) /\
  tokenizeNumbers 10 "-(1+2)(" 3 = Ok (of_int (-3), "(", 3).
Proof.
  split.
  - apply (parenthesized_group 9 "6/5-4" (fst (makeFloat "-2.8")) 0 "*2" 3);
      [reflexivity|unfold inInt; lia].
  - apply (parenthesized_group 9 "1+2" (of_int 3) 0 "(" 3);
      [reflexivity|unfold inInt; lia].
Defined.

(** X11 (parentheses are transparent).  If an expression evaluates to
    [v] with nothing left, [solve] returns [v] for it, [v] again for
    the expression between parentheses, and [v * -1] for the
    parenthesized expression with a minus sign in front: the passage
    of the value through the [double] accumulator and back rounds
    nothing. *)
Theorem parentheses_are_transparent n E v cp :
  tokenizeExpression n E 0 = Ok (v, "", cp) ->
  solve E = Ok v /\
  solve ("(" ++ E ++ ")") = Ok v /\
  solve ("-(" ++ E ++ ")") = Ok (fmul v (of_int (-1))).
Proof.
  intros Hrun.
  assert (inInt 0) as Hin by (unfold inInt; lia).
  destruct (grammar_valid n) as (_ & _ & _ & Hv & _).
  pose proof (Hv _ _ _ _ _ Hrun) as Hvalid.
  split; [eapply solve_of_expression; exact Hrun|split].
  - apply solve_of_run with (n := S (S (S n))) (rest := "").
    rewrite tokenizeExpression_S, tokenizeMulDiv_S.
    pose proof (tokenizeNumbers_group n E v cp false "" 0 Hrun Hin) as Hg.
    change ((if false then "-(" else "(") ++ E ++ ")" ++ "") with ("(" ++ E ++ ")") in Hg.
    rewrite Hg. cbn [bind negateIf].
    rewrite tokenizeMulDiv_loop_done by reflexivity. cursor.
    rewrite tokenizeExpression_loop_done by reflexivity.
    rewrite to_float_to_double by assumption. reflexivity.
  - apply solve_of_run with (n := S (S (S n))) (rest := "").
    rewrite tokenizeExpression_S, tokenizeMulDiv_S.
    pose proof (tokenizeNumbers_group n E v cp true "" 0 Hrun Hin) as Hg.
    change ((if true then "-(" else "(") ++ E ++ ")" ++ "") with ("-(" ++ E ++ ")") in Hg.
    rewrite Hg. cbn [bind negateIf].
    rewrite tokenizeMulDiv_loop_done by reflexivity. cursor.
    rewrite tokenizeExpression_loop_done by reflexivity.
    rewrite to_float_to_double
      by (apply fmul_valid; [assumption|apply of_int_valid]).
    reflexivity.
Qed.

Lemma parentheses_are_transparent_witness :
  solve "(0.03)*73-2" = solve "((0.03)*73-2)" /\
  solve "-(2+3*4)" = Ok (of_int (-14)).
Proof.
  destruct (tokenizeExpression 12 "(0.03)*73-2" 0) as [[[v e] c]| |] eqn:E;
    try (vm_compute in E; discriminate E).
  assert (e = "") as -> by (vm_compute in E; congruence).
  destruct (parentheses_are_transparent 12 "(0.03)*73-2" v c E) as (H1 & H2 & _).
  destruct (parentheses_are_transparent 12 "2+3*4" (of_int 14) 0 eq_refl) as (_ & _ & H3).
  split; [|exact H3].
  change ("(" ++ "(0.03)*73-2" ++ ")") with "((0.03)*73-2)" in H2.
  rewrite H1, H2. reflexivity.
Defined.

(** X12 (float to double and back).  Converting a value of the
    binary32 format to [double] and back to [float], as
    [tokenizeExpression] does with its accumulator, gives the value
    back unchanged. *)
Theorem float_double_round_trip x :
  valid32 x = true -> to_float (to_double x) = x.
Proof. apply to_float_to_double. Qed.

Lemma float_double_round_trip_witness :
  to_float (to_double (fst (makeFloat "0.1"))) = fst (makeFloat "0.1").
Proof. apply float_double_round_trip. reflexivity. Defined.

(** X13 (values are binary32 values).  Whatever the scanner, a grammar
    level or [solve] returns is a value of the binary32 format: a zero,
    an infinity, a not-a-number, or a mantissa of at most 24 bits in
    canonical position with its exponent in range. *)
Theorem returned_values_are_valid :
  (forall eq, valid32 (fst (makeFloat eq)) = true) /\
  (forall n eq cp v eq' cp',
     tokenizeNumbers n eq cp = Ok (v, eq', cp') \/
     tokenizeMulDiv n eq cp = Ok (v, eq', cp') \/
     tokenizeExpression n eq cp = Ok (v, eq', cp') ->
     valid32 v = true) /\
  (forall eq v, solve eq = Ok v -> valid32 v = true).
Proof.
  split; [apply makeFloat_valid|split].
  - intros n eq cp v eq' cp' H.
    destruct (grammar_valid n) as (Hn & Hm & _ & He & _).
    destruct H as [H|[H|H]]; eauto.
  - intros eq v H. unfold solve in H. break_bind H.
    destruct (Z.eqb z 0); inv H.
    destruct (grammar_valid (fuelFor eq)) as (_ & _ & _ & He & _). eauto.
Qed.

Lemma returned_values_are_valid_witness :
  valid32 (S754_finite false 12582912 (-22)) = true /\
  valid32 (S754_finite false 3 0) = false.
Proof.
  destruct returned_values_are_valid as (_ & _ & H).
  split; [|reflexivity].
  apply (H "1+2"). reflexivity.
Defined.

(** X14 (a lone term is returned as it is).  When [tokenizeMulDiv]
    returns [v] and no [+] or [-] follows, [solve] returns exactly [v]:
    [tokenizeExpression] adds no rounding of its own.  In particular
    [solve] on a literal, signed or not, is the scanner's value. *)
Theorem lone_term_is_unrounded :
  (forall n eq v rest cp,
     tokenizeMulDiv n eq 0 = Ok (v, rest, cp) ->
     peek (skipSpaces rest) <> "+"%char -> peek (skipSpaces rest) <> "-"%char ->
     solve eq = Ok v) /\
  (forall a, signedLiteral a = true -> solve a = Ok (literalValue a)).
Proof.
  assert (forall n eq v rest cp,
     tokenizeMulDiv n eq 0 = Ok (v, rest, cp) ->
     peek (skipSpaces rest) <> "+"%char -> peek (skipSpaces rest) <> "-"%char ->
     solve eq = Ok v) as Hterm.
  { intros n eq v rest cp Hrun Hadd Hsub.
    apply Ascii.eqb_neq in Hadd, Hsub.
    destruct (grammar_valid n) as (_ & Hv & _).
    pose proof (Hv _ _ _ _ _ Hrun) as Hvalid.
    destruct n as [|n]; [discriminate|].
    apply solve_of_expression with (n := S (S n)) (rest := skipSpaces rest) (cp := cp).
    rewrite tokenizeExpression_S, Hrun. cbn [bind].
    rewrite tokenizeExpression_loop_done by assumption.
    rewrite to_float_to_double by assumption. reflexivity. }
  split; [exact Hterm|].
  intros a Ha. apply (Hterm 2%nat a (literalValue a) "" 0); try discriminate.
  rewrite <- (app_empty_r a) at 1. rewrite tokenizeMulDiv_S. literal_step.
  rewrite tokenizeMulDiv_loop_done by reflexivity. reflexivity.
Qed.

Lemma lone_term_is_unrounded_witness :
  solve "9 / 8/7 )" = Ok (fdiv (fdiv (of_int 9) (of_int 8)) (of_int 7)) /\
  solve "-0.5" = Ok (literalValue "-0.5").
Proof.
  destruct lone_term_is_unrounded as (Hterm & Hlit).
  split.
  - apply (Hterm 4%nat "9 / 8/7 )" _ ")" 0); [reflexivity|discriminate..].
  - apply Hlit. reflexivity.
Defined.

Lemma expression_run_lift n m E v cp :
  tokenizeExpression n E 0 = Ok (v, "", cp) -> (n <= m)%nat ->
  tokenizeExpression m E 0 = Ok (v, "", cp).
Proof.
  intros H Hle. rewrite (fuel_mono_expression n m) by (assumption || congruence).
  exact H.
Qed.

Ltac use_group G :=
  match type of G with
  | ?l = _ =>
      match goal with
      | |- context [tokenizeNumbers ?f ?s ?c] =>
          change (tokenizeNumbers f s c) with l; rewrite G; cbn [bind]
      end
  end.

(** X15 (groups compose).  If [E1] evaluates to [v1] and [E2] to [v2],
    each with nothing left, then [solve] on the two between
    parentheses with an operator in between returns the operation on
    [v1] and [v2]: the sum or the difference formed in [double] and
    rounded to [float], the product or the quotient formed in [float];
    and the quotient by a zero aborts with DivisionByZero. *)
Theorem groups_compose n1 n2 E1 E2 v1 v2 cp1 cp2 :
  tokenizeExpression n1 E1 0 = Ok (v1, "", cp1) ->
  tokenizeExpression n2 E2 0 = Ok (v2, "", cp2) ->
  solve ("(" ++ E1 ++ ")+(" ++ E2 ++ ")") =
    Ok (to_float (dadd (to_double v1) (to_double v2))) /\
  solve ("(" ++ E1 ++ ")-(" ++ E2 ++ ")") =
    Ok (to_float (dsub (to_double v1) (to_double v2))) /\
  solve ("(" ++ E1 ++ ")*(" ++ E2 ++ ")") = Ok (fmul v1 v2) /\
  solve ("(" ++ E1 ++ ")/(" ++ E2 ++ ")") =
    if isZero v2 then Abort DivisionByZero else Ok (fdiv v1 v2).
Proof.
  intros H1 H2.
  assert (inInt 0) as Hin by (unfold inInt; lia).
  set (k := Nat.max n1 n2).
  pose proof (expression_run_lift n1 (S k) E1 v1 cp1 H1 ltac:(lia)) as R1.
  pose proof (expression_run_lift n2 k E2 v2 cp2 H2 ltac:(lia)) as R2.
  destruct (grammar_valid n1) as (_ & _ & _ & Hv1 & _).
  destruct (grammar_valid n2) as (_ & _ & _ & Hv2 & _).
  pose proof (Hv1 _ _ _ _ _ H1) as V1. pose proof (Hv2 _ _ _ _ _ H2) as V2.
  pose proof (fun op => tokenizeNumbers_group (S k) E1 v1 cp1 false
                          (String op ("(" ++ E2 ++ ")")) 0 R1 Hin) as G1.
  pose proof (tokenizeNumbers_group k E2 v2 cp2 false "" 0 R2 Hin) as G2.
  cbn [negateIf] in G1, G2.
  repeat split.
  - apply solve_of_run with (n := S (S (S (S k)))) (rest := "").
    rewrite tokenizeExpression_S, tokenizeMulDiv_S.
    specialize (G1 "+"%char).
    use_group G1.
    rewrite tokenizeMulDiv_loop_done by reflexivity. cursor.
    rewrite tokenizeExpression_loop_add by reflexivity. cursor.
    rewrite tokenizeMulDiv_S.
    use_group G2.
    rewrite tokenizeMulDiv_loop_done by reflexivity. cursor.
    rewrite tokenizeExpression_loop_done by reflexivity. reflexivity.
  - apply solve_of_run with (n := S (S (S (S k)))) (rest := "").
    rewrite tokenizeExpression_S, tokenizeMulDiv_S.
    specialize (G1 "-"%char).
    use_group G1.
    rewrite tokenizeMulDiv_loop_done by reflexivity. cursor.
    rewrite tokenizeExpression_loop_sub by reflexivity. cursor.
    rewrite tokenizeMulDiv_S.
    use_group G2.
    rewrite tokenizeMulDiv_loop_done by reflexivity. cursor.
    rewrite tokenizeExpression_loop_done by reflexivity. reflexivity.
  - apply solve_of_run with (n := S (S (S (S k)))) (rest := "").
    rewrite tokenizeExpression_S, tokenizeMulDiv_S.
    specialize (G1 "*"%char).
    use_group G1.
    rewrite tokenizeMulDiv_loop_mul by reflexivity. cursor.
    use_group G2.
    rewrite tokenizeMulDiv_loop_done by reflexivity. cursor.
    rewrite tokenizeExpression_loop_done by reflexivity.
    rewrite to_float_to_double by (apply fmul_valid; assumption). reflexivity.
  - specialize (G1 "/"%char).
    assert (tokenizeExpression (S (S (S (S k)))) ("(" ++ E1 ++ ")/(" ++ E2 ++ ")") 0 =
            if isZero v2 then Abort DivisionByZero else Ok (fdiv v1 v2, "", 0)) as Hrun.
    { rewrite tokenizeExpression_S, tokenizeMulDiv_S.
      use_group G1.
      rewrite tokenizeMulDiv_loop_div by reflexivity. cursor.
      use_group G2.
      destruct (isZero v2); [reflexivity|].
      rewrite tokenizeMulDiv_loop_done by reflexivity. cursor.
      rewrite tokenizeExpression_loop_done by reflexivity.
      rewrite to_float_to_double by apply fdiv_valid. reflexivity. }
    destruct (isZero v2).
    + eapply solve_of_abort; exact Hrun.
    + eapply solve_of_run; exact Hrun.
Qed.

Lemma groups_compose_witness :
  solve "(1+2)*(3+4)" = Ok (of_int 21) /\
  solve "(12)/(2-2)" = Abort DivisionByZero.
Proof.
  destruct (groups_compose 9 9 "1+2" "3+4" (of_int 3) (of_int 7) 0 0 eq_refl eq_refl)
    as (_ & _ & H1 & _).
  destruct (groups_compose 9 9 "12" "2-2" (of_int 12) (of_int 0) 0 0 eq_refl eq_refl)
    as (_ & _ & _ & H2).
  split; [exact H1|exact H2].
Defined.
